(** * Verification of the proposer's proof-request orchestration and of the
      span-batch range derivation helpers.

    The development embeds two Go packages:

    - package [proposer] (proposer/op/proposer/prove.go): the three
      orchestrator passes over the proof-request ledger, the retry policy
      and the requests sent to the OP Succinct server;
    - package [utils] (the span-batch utilities): [CustomBytes32],
      [TimestampToBlock], [GetSpanBatchRanges] and
      [GetL1SearchBoundaries].

    Go's [uint64] values are integers in [Z] whose wrap-around is written out
    in module [U64].  Functions that return an [error] are computations in a
    state-and-error monad over the [World] (the ledger, the wall clock and the
    HTTP requests sent so far); writes made before an error stay in place, as
    they do in the database. *)

From Stdlib Require Import ZArith List String Ascii Bool Lia Permutation.
Import ListNotations.

Local Open Scope string_scope.
Local Open Scope list_scope.
Local Open Scope Z_scope.

(* ================================================================== *)
(** ** Machine integers *)
(* ================================================================== *)

Module U64.

Definition modulus : Z := 2 ^ 64.
Definition max_value : Z := modulus - 1.

Definition in_range (z : Z) : Prop := 0 <= z < modulus.

(** Conversion of any integer to [uint64] (two's complement). *)
Definition wrap (z : Z) : Z := z mod modulus.

Definition add (a b : Z) : Z := wrap (a + b).
Definition sub (a b : Z) : Z := wrap (a - b).
Definition mul (a b : Z) : Z := wrap (a * b).

(** Integer division panics on a zero divisor: [None]. *)
Definition div (a b : Z) : option Z :=
  if b =? 0 then None else Some (a / b).

(** [int64(x)] and [int(x)] on a 64-bit platform, for [x : uint64]. *)
Definition to_int64 (z : Z) : Z :=
  let r := wrap z in if r <? 2 ^ 63 then r else r - modulus.

Definition max (a b : Z) : Z := if a <? b then b else a.
Definition min (a b : Z) : Z := if b <? a then b else a.

End U64.

(* ================================================================== *)
(** ** Errors *)
(* ================================================================== *)

(** A Go [error]: either created from a message ([errors.New], or an error
    coming out of a library) or wrapping a cause ([fmt.Errorf] with [%w] or
    [%v]). *)
Inductive error : Type :=
| New (msg : string)
| Errorf (msg : string) (cause : error).

(* ================================================================== *)
(** ** Package proposer *)
(* ================================================================== *)

Module Proposer.

(** *** The proof-request entity (package ent) *)

(** [proofrequest.Type] is a string enumeration; a value outside the two
    declared ones is what [RequestOPSuccinctProof] calls an unknown type. *)
Inductive ProofType : Type :=
| TypeSPAN
| TypeAGG
| TypeOther (name : string).

Inductive ProofStatus : Type :=
| StatusUNREQ
| StatusREQ
| StatusCOMPLETE
| StatusFAILED.

Definition ProofType_eqb (a b : ProofType) : bool :=
  match a, b with
  | TypeSPAN, TypeSPAN => true
  | TypeAGG, TypeAGG => true
  | TypeOther x, TypeOther y => String.eqb x y
  | _, _ => false
  end.

Definition ProofStatus_eqb (a b : ProofStatus) : bool :=
  match a, b with
  | StatusUNREQ, StatusUNREQ => true
  | StatusREQ, StatusREQ => true
  | StatusCOMPLETE, StatusCOMPLETE => true
  | StatusFAILED, StatusFAILED => true
  | _, _ => false
  end.

Record ProofRequest : Type := mkProofRequest {
  ID : nat;
  Type_ : ProofType;
  StartBlock : Z;
  EndBlock : Z;
  Status : ProofStatus;
  ProverRequestID : string;
  RequestAddedTime : Z;
  ProofRequestTime : Z;
  L1BlockNumber : Z;
  L1BlockHash : string;
  Proof : list Byte.byte
}.

Definition with_Status (st : ProofStatus) (r : ProofRequest) : ProofRequest :=
  mkProofRequest (ID r) (Type_ r) (StartBlock r) (EndBlock r) st
    (ProverRequestID r) (RequestAddedTime r) (ProofRequestTime r)
    (L1BlockNumber r) (L1BlockHash r) (Proof r).

Definition with_ProofRequestTime (t : Z) (r : ProofRequest) : ProofRequest :=
  mkProofRequest (ID r) (Type_ r) (StartBlock r) (EndBlock r) (Status r)
    (ProverRequestID r) (RequestAddedTime r) t
    (L1BlockNumber r) (L1BlockHash r) (Proof r).

Definition with_ProverRequestID (s : string) (r : ProofRequest) : ProofRequest :=
  mkProofRequest (ID r) (Type_ r) (StartBlock r) (EndBlock r) (Status r)
    s (RequestAddedTime r) (ProofRequestTime r)
    (L1BlockNumber r) (L1BlockHash r) (Proof r).

Definition with_Proof (p : list Byte.byte) (r : ProofRequest) : ProofRequest :=
  mkProofRequest (ID r) (Type_ r) (StartBlock r) (EndBlock r) (Status r)
    (ProverRequestID r) (RequestAddedTime r) (ProofRequestTime r)
    (L1BlockNumber r) (L1BlockHash r) p.

Definition with_L1BlockInfo (n : Z) (h : string) (r : ProofRequest) : ProofRequest :=
  mkProofRequest (ID r) (Type_ r) (StartBlock r) (EndBlock r) (Status r)
    (ProverRequestID r) (RequestAddedTime r) (ProofRequestTime r)
    n h (Proof r).

(** *** The world the orchestrator runs in *)

(** The ledger: the table of records in insertion order, the next
    identifier, and a schedule of storage faults.  Each ledger operation
    consumes one entry of the schedule; [true] makes that operation return a
    storage error without touching the table.  An empty schedule is a
    ledger whose storage never fails. *)
Record Ledger : Type := mkLedger {
  rows : list ProofRequest;
  next_id : nat;
  faults : list bool
}.

(** A JSON document, as handed to [json.Marshal]. *)
#[local] Set Warnings "-register-all".
Inductive json : Type :=
| JNumber (n : Z)
| JString (s : string)
| JBytes (b : list Byte.byte)
| JArray (xs : list json)
| JObject (fields : list (string * json)).

Record HttpRequest : Type := mkHttpRequest {
  http_method : string;
  http_url : string;
  http_body : option json
}.

(** The clock is read, never advanced: a pass is modelled at one instant,
    and every statement below holds whatever that instant is. *)
Record World : Type := mkWorld {
  db : Ledger;
  clock : Z;                    (* time.Now().Unix() *)
  sent : list HttpRequest       (* requests handed to client.Do, oldest first *)
}.

Definition with_db (d : Ledger) (w : World) : World :=
  mkWorld d (clock w) (sent w).

Definition with_sent (s : list HttpRequest) (w : World) : World :=
  mkWorld (db w) (clock w) s.

(** *** The state-and-error monad *)

Definition M (A : Type) : Type := World -> (error + A) * World.

Definition ret {A} (a : A) : M A := fun w => (inr a, w).

Definition fail {A} (e : error) : M A := fun w => (inl e, w).

Definition bind {A B} (m : M A) (k : A -> M B) : M B :=
  fun w =>
    match m w with
    | (inl e, w') => (inl e, w')
    | (inr a, w') => k a w'
    end.

(** [if err != nil { return fmt.Errorf(msg, err) }] *)
Definition wrapping {A} (msg : string) (m : M A) : M A :=
  fun w =>
    match m w with
    | (inl e, w') => (inl (Errorf msg e), w')
    | (inr a, w') => (inr a, w')
    end.

(** Run [m] and hand its outcome to the caller, who only logs an error. *)
Definition attempt {A} (m : M A) : M (error + A) :=
  fun w => let (r, w') := m w in (inr r, w').

Declare Scope go_scope.
Delimit Scope go_scope with go.
Notation "x <- m ;; k" := (bind m (fun x => k))
  (at level 61, m at next level, right associativity) : go_scope.
Notation "m ;;; k" := (bind m (fun _ => k))
  (at level 61, right associativity) : go_scope.
Local Open Scope go_scope.

(** Monadic [for _, x := range xs]. *)
Fixpoint for_each {A} (xs : list A) (body : A -> M unit) : M unit :=
  match xs with
  | [] => ret tt
  | x :: xs' => body x ;;; for_each xs' body
  end.

(** *** The request ledger (package db)

    The ledger's implementation is not part of the sources at hand; its
    operations are modelled from the specification of the ledger (section
    4.1 of the design document), under the names the orchestrator calls
    them by. *)

Definition pop_fault (d : Ledger) : bool * Ledger :=
  match faults d with
  | [] => (false, d)
  | f :: fs => (f, mkLedger (rows d) (next_id d) fs)
  end.

(** One ledger operation: it fails as a whole if the storage is faulty at
    this call, and otherwise runs [body] on the table at the current time. *)
Definition ledger_op {A} (name : string)
    (body : Z -> Ledger -> (error + A) * Ledger) : M A :=
  fun w =>
    let (faulty, d) := pop_fault (db w) in
    if faulty then (inl (New name), with_db d w)
    else let (r, d') := body (clock w) d in (r, with_db d' w).

Definition with_rows (rs : list ProofRequest) (d : Ledger) : Ledger :=
  mkLedger rs (next_id d) (faults d).

Definition find_row (id : nat) (rs : list ProofRequest) : option ProofRequest :=
  find (fun r => Nat.eqb (ID r) id) rs.

Definition update_rows (id : nat) (f : ProofRequest -> ProofRequest)
    (rs : list ProofRequest) : list ProofRequest :=
  map (fun r => if Nat.eqb (ID r) id then f r else r) rs.

Definition has_status (st : ProofStatus) (r : ProofRequest) : bool :=
  ProofStatus_eqb (Status r) st.

Definition count_by_status (st : ProofStatus) (rs : list ProofRequest) : Z :=
  Z.of_nat (List.length (filter (has_status st) rs)).

Definition fresh_request (id : nat) (typ : ProofType) (start end_ added : Z)
    : ProofRequest :=
  mkProofRequest id typ start end_ StatusUNREQ "" added 0 0 "" [].

(** Modelled from the spec: [insert(type, start, end, request_added_time)]
    "creates a new record in state UNREQ with empty prover_request_id and
    proof"; identifiers are "monotonically increasing, assigned at
    insert". *)
Definition NewEntryWithReqAddedTimestamp (typ : ProofType) (start end_ now : Z)
    : M unit :=
  ledger_op "NewEntryWithReqAddedTimestamp" (fun _ d =>
    (inr tt,
     mkLedger (rows d ++ [fresh_request (next_id d) typ start end_ now])
              (S (next_id d)) (faults d))).

Definition lowest_id (rs : list ProofRequest) : option ProofRequest :=
  fold_left
    (fun acc r =>
       match acc with
       | None => Some r
       | Some a => if Nat.ltb (ID r) (ID a) then Some r else Some a
       end)
    rs None.

(** Modelled from the spec: [next_unrequested()] "returns one record with
    status = UNREQ, chosen deterministically (lowest id first). Returns
    nothing if none exists." *)
Definition GetNextUnrequestedProof : M (option ProofRequest) :=
  ledger_op "GetNextUnrequestedProof" (fun _ d =>
    (inr (lowest_id (filter (has_status StatusUNREQ) (rows d))), d)).

(** Modelled from the spec: [count_by_status(status) -> int]. *)
Definition GetNumberOfProofsWithStatus (st : ProofStatus) : M Z :=
  ledger_op "GetNumberOfProofsWithStatus" (fun _ d =>
    (inr (count_by_status st (rows d)), d)).

(** Modelled from the spec: [get_failed_on_server()] returns the "records
    with status = FAILED AND prover_request_id = empty". *)
Definition GetProofsFailedOnServer : M (list ProofRequest) :=
  ledger_op "GetProofsFailedOnServer" (fun _ d =>
    (inr (filter (fun r => has_status StatusFAILED r
                           && String.eqb (ProverRequestID r) "") (rows d)), d)).

(** Modelled from the spec: [get_all_pending()] returns the "records with
    status = REQ AND prover_request_id <> empty". *)
Definition GetAllPendingProofs : M (list ProofRequest) :=
  ledger_op "GetAllPendingProofs" (fun _ d =>
    (inr (filter (fun r => has_status StatusREQ r
                           && negb (String.eqb (ProverRequestID r) "")) (rows d)), d)).

(** Modelled from the spec: [set_prover_request_id(id, s)]. *)
Definition SetProverRequestID (id : nat) (s : string) : M unit :=
  ledger_op "SetProverRequestID" (fun _ d =>
    (inr tt, with_rows (update_rows id (with_ProverRequestID s) (rows d)) d)).

(** Modelled from the spec: [update_status(id, new_status)], with
    [proof_request_time] the "wall-clock seconds when the record
    transitioned to REQ". *)
Definition UpdateProofStatus (id : nat) (st : ProofStatus) : M unit :=
  ledger_op "UpdateProofStatus" (fun now d =>
    let f r :=
      match st with
      | StatusREQ => with_ProofRequestTime (U64.wrap now) (with_Status st r)
      | _ => with_Status st r
      end in
    (inr tt, with_rows (update_rows id f (rows d)) d)).

(** Modelled from the spec: [add_proof(id, bytes)] "sets proof and
    transitions to COMPLETE atomically; fails if status was not REQ". *)
Definition AddProof (id : nat) (proof : list Byte.byte) : M unit :=
  ledger_op "AddProof" (fun _ d =>
    match find_row id (rows d) with
    | Some r =>
        if has_status StatusREQ r then
          (inr tt,
           with_rows (update_rows id
                        (fun r => with_Status StatusCOMPLETE (with_Proof proof r))
                        (rows d)) d)
        else (inl (New "AddProof: proof request is not in status REQ"), d)
    | None => (inl (New "AddProof: proof request not found"), d)
    end).

Definition is_agg_for (start end_ : Z) (r : ProofRequest) : bool :=
  ProofType_eqb (Type_ r) TypeAGG
  && (StartBlock r =? start) && (EndBlock r =? end_).

(** Modelled from the spec: [attach_l1_checkpoint(start, end, l1_number,
    l1_hash) -> ProofRequest] "updates the matching AGG record"; the record
    returned is the updated one. *)
Definition AddL1BlockInfoToAggRequest (start end_ l1Number : Z) (l1Hash : string)
    : M ProofRequest :=
  ledger_op "AddL1BlockInfoToAggRequest" (fun _ d =>
    match find (is_agg_for start end_) (rows d) with
    | Some r =>
        (inr (with_L1BlockInfo l1Number l1Hash r),
         with_rows (map (fun r => if is_agg_for start end_ r
                                  then with_L1BlockInfo l1Number l1Hash r
                                  else r) (rows d)) d)
    | None => (inl (New "AddL1BlockInfoToAggRequest: no matching AGG request"), d)
    end).

Definition is_complete_span_from (cur : Z) (r : ProofRequest) : bool :=
  ProofType_eqb (Type_ r) TypeSPAN && has_status StatusCOMPLETE r
  && (StartBlock r =? cur).

Fixpoint consecutive_span_proofs (fuel : nat) (rs : list ProofRequest)
    (cur end_ : Z) : option (list (list Byte.byte)) :=
  match fuel with
  | O => None
  | S fuel' =>
      match find (is_complete_span_from cur) rs with
      | None => None
      | Some r =>
          if EndBlock r =? end_ then Some [Proof r]
          else if (cur <=? EndBlock r) && (EndBlock r <? end_) then
            option_map (cons (Proof r))
              (consecutive_span_proofs fuel' rs (EndBlock r + 1) end_)
          else None
      end
  end.

(** Modelled from the spec: [get_consecutive_span_proofs(start, end)]
    "returns the ordered proof blobs for SPAN records in state COMPLETE that
    tile [start, end] without gap or overlap; fails if no such tiling
    exists". *)
Definition GetConsecutiveSpanProofs (start end_ : Z) : M (list (list Byte.byte)) :=
  ledger_op "GetConsecutiveSpanProofs" (fun _ d =>
    match consecutive_span_proofs (S (List.length (rows d))) (rows d) start end_ with
    | Some proofs => (inr proofs, d)
    | None => (inl (New "GetConsecutiveSpanProofs: no consecutive span proofs"), d)
    end).

(** *** The submitter and its collaborators *)

(** What an HTTP exchange with the OP Succinct server can come to, one case
    per branch of [RequestProofFromServer] and [GetProofStatus]; [A] is the
    response structure the body is decoded into. *)
Inductive HttpReply (A : Type) : Type :=
| RequestInvalid (e : error)      (* http.NewRequest failed *)
| NetTimeout (e : error)          (* client.Do: a net.Error with Timeout() *)
| NetFailure (e : error)          (* client.Do: any other error *)
| BodyUnreadable (e : error)      (* reading resp.Body failed *)
| BodyUndecodable (e : error)     (* json.Unmarshal failed *)
| Decoded (a : A).

Arguments RequestInvalid {A} e.
Arguments NetTimeout {A} e.
Arguments NetFailure {A} e.
Arguments BodyUnreadable {A} e.
Arguments BodyUndecodable {A} e.
Arguments Decoded {A} a.

(** The receiver [l *L2OutputSubmitter]: the configuration fields the
    passes read, and the collaborators they call.  The server's answers may
    depend on everything that was sent before.  Logging through [l.Log] has
    no effect on the passes and is left out. *)
Record L2OutputSubmitter : Type := mkL2OutputSubmitter {
  ProofTimeout : Z;                     (* l.DriverSetup.Cfg.ProofTimeout, uint64 *)
  MaxConcurrentProofRequests : Z;       (* l.Cfg.MaxConcurrentProofRequests, uint64 *)
  OPSuccinctServerUrl : string;         (* l.Cfg.OPSuccinctServerUrl *)
  checkpointBlockHash : error + (Z * string);
  server_post : list HttpRequest -> string -> json -> HttpReply string;
  server_get : list HttpRequest -> string -> HttpReply (string * list Byte.byte)
}.

Definition time_Now_Unix : M Z := fun w => (inr (clock w), w).

Definition record_sent (r : HttpRequest) (w : World) : World :=
  with_sent (sent w ++ [r]) w.

(** *** prove.go *)

(** Request a proof from the OP Succinct server, given the path and the
    body of the request.  Returns the proof ID on a successful request. *)
Definition RequestProofFromServer (l : L2OutputSubmitter) (urlPath : string)
    (jsonBody : json) : M string :=
  fun w =>
    let url := (OPSuccinctServerUrl l ++ "/" ++ urlPath)%string in
    let req := mkHttpRequest "POST" url (Some jsonBody) in
    match server_post l (sent w) url jsonBody with
    | RequestInvalid e => (inl (Errorf "failed to create request" e), w)
    | NetTimeout e =>
        (inl (Errorf "request timed out after 3 minutes" e), record_sent req w)
    | NetFailure e =>
        (inl (Errorf "failed to send request" e), record_sent req w)
    | BodyUnreadable e =>
        (inl (Errorf "error reading the response body" e), record_sent req w)
    | BodyUndecodable e =>
        (inl (Errorf "error decoding JSON response" e), record_sent req w)
    | Decoded proofID => (inr proofID, record_sent req w)
    end.

(** [json.Marshal(SpanProofRequest{Start, End})]; marshalling two integers
    cannot fail. *)
Definition SpanProofRequest (start end_ : Z) : json :=
  JObject [("start", JNumber start); ("end", JNumber end_)].

(** [json.Marshal(AggProofRequest{Subproofs, L1Head})]. *)
Definition AggProofRequest (subproofs : list (list Byte.byte)) (l1Head : string)
    : json :=
  JObject [("subproofs", JArray (map JBytes subproofs)); ("head", JString l1Head)].

(** Request a span proof for the range [l2Start, l2End]. *)
Definition RequestSpanProof (l : L2OutputSubmitter) (l2Start l2End : Z) : M string :=
  let requestBody := SpanProofRequest l2Start l2End in
  RequestProofFromServer l "request_span_proof" requestBody.

Local Open Scope go_scope.

(** Request an aggregate proof for the range [start+1, end]. *)
Definition RequestAggProof (l : L2OutputSubmitter) (start end_ : Z)
    (l1BlockHash : string) : M string :=
  subproofs <- wrapping "failed to get subproofs"
                 (GetConsecutiveSpanProofs (U64.add start 1) end_) ;;
  let requestBody := AggProofRequest subproofs l1BlockHash in
  RequestProofFromServer l "request_agg_proof" requestBody.

(** Request a proof from the OP Succinct server. *)
Definition RequestOPSuccinctProof (l : L2OutputSubmitter) (p : ProofRequest)
    : M unit :=
  let prevConfirmedBlock := U64.sub (StartBlock p) 1 in
  proofId <-
    match Type_ p with
    | TypeAGG =>
        wrapping "failed to request AGG proof"
          (RequestAggProof l prevConfirmedBlock (EndBlock p) (L1BlockHash p))
    | TypeSPAN =>
        wrapping "failed to request SPAN proof"
          (RequestSpanProof l prevConfirmedBlock (EndBlock p))
    | TypeOther name => fail (New ("unknown proof type: " ++ name)%string)
    end ;;
  wrapping "failed to set prover request ID" (SetProverRequestID (ID p) proofId).

(** Get the status of a proof given its ID. *)
Definition GetProofStatus (l : L2OutputSubmitter) (proofId : string)
    : M (string * list Byte.byte) :=
  fun w =>
    let url := (OPSuccinctServerUrl l ++ "/status/" ++ proofId)%string in
    let req := mkHttpRequest "GET" url None in
    match server_get l (sent w) url with
    | RequestInvalid e => (inl (Errorf "failed to create request" e), w)
    | NetTimeout e =>
        (inl (Errorf "request timed out after 30 seconds" e), record_sent req w)
    | NetFailure e =>
        (inl (Errorf "failed to send request" e), record_sent req w)
    | BodyUnreadable e =>
        (inl (Errorf "error reading the response body" e), record_sent req w)
    | BodyUndecodable e =>
        (inl (Errorf "error decoding JSON response" e), record_sent req w)
    | Decoded response => (inr response, record_sent req w)
    end.

(** The two iterations of the loop [for i := 0; i < 2; i++] of
    [RetryRequest], with its loop variables. *)
Fixpoint retry_split_loop (req : ProofRequest) (iterations : nat)
    (tmpStart tmpEnd : Z) : M unit :=
  match iterations with
  | O => ret tt
  | S n =>
      NewEntryWithReqAddedTimestamp TypeSPAN tmpStart tmpEnd 0 ;;;
      retry_split_loop req n (U64.add tmpEnd 1) (EndBlock req)
  end.

Definition RetryRequest (l : L2OutputSubmitter) (req : ProofRequest) : M unit :=
  if ProofType_eqb (Type_ req) TypeAGG then
    (* If an AGG proof failed, something went deeply wrong. Simply try again. *)
    NewEntryWithReqAddedTimestamp TypeAGG (StartBlock req) (EndBlock req) 0
  else
    (* If a SPAN proof failed, assume it was too big and the SP1 runtime
       OOM'd.  Therefore, create two new entries for the original proof
       split in half. *)
    let tmpStart := StartBlock req in
    let tmpEnd := U64.add tmpStart (U64.sub (EndBlock req) tmpStart / 2) in
    retry_split_loop req 2 tmpStart tmpEnd.

Definition PROOF_FULFILLED : string := "PROOF_FULFILLED".
Definition PROOF_UNCLAIMED : string := "PROOF_UNCLAIMED".

(** [uint64(time.Now().Unix()) > req.ProofRequestTime + ProofTimeout] *)
Definition timed_out (l : L2OutputSubmitter) (req : ProofRequest) (now : Z) : bool :=
  U64.wrap now >? U64.add (ProofRequestTime req) (ProofTimeout l).

(** The body of the loop over the pending proofs. *)
Definition process_pending_proof (l : L2OutputSubmitter) (req : ProofRequest)
    : M unit :=
  response <- GetProofStatus l (ProverRequestID req) ;;
  let (status, proof) := response : string * list Byte.byte in
  if String.eqb status PROOF_FULFILLED then
    (* update the proof to the DB and update status to "COMPLETE" *)
    AddProof (ID req) proof
  else
    now <- time_Now_Unix ;;
    let timeout := timed_out l req now in
    if timeout || String.eqb status PROOF_UNCLAIMED then
      (* update status in db to "FAILED" *)
      UpdateProofStatus (ID req) StatusFAILED ;;;
      wrapping "failed to retry request" (RetryRequest l req)
    else ret tt.

(** Process all of the pending proofs. *)
Definition ProcessPendingProofs (l : L2OutputSubmitter) : M unit :=
  failedReqs <- wrapping "failed to get proofs failed on server"
                  GetProofsFailedOnServer ;;
  for_each failedReqs
    (fun req => wrapping "failed to retry request" (RetryRequest l req)) ;;;
  reqs <- GetAllPendingProofs ;;
  for_each reqs (process_pending_proof l).

(** [RequestQueuedProofs] returns an error and may start a goroutine on a
    copy of the record it picked; the result [Some p] stands for the
    goroutine started on the copy [p] of the record picked. *)
Definition RequestQueuedProofs (l : L2OutputSubmitter) : M (option ProofRequest) :=
  nextProofToRequest <- wrapping "failed to get unrequested proofs"
                          GetNextUnrequestedProof ;;
  match nextProofToRequest with
  | None => ret None
  | Some p =>
      if ProofType_eqb (Type_ p) TypeAGG then
        if String.eqb (L1BlockHash p) "" then
          match checkpointBlockHash l with
          | inl e => fail e
          | inr (blockNumber, blockHash) =>
              (* an error of the ledger is logged here, nothing more *)
              attempt (AddL1BlockInfoToAggRequest (StartBlock p) (EndBlock p)
                         blockNumber blockHash) ;;;
              (* wait for the next loop so that we have the version with
                 the block info added *)
              ret None
          end
        else ret (Some p)
      else
        currentRequestedProofs <-
          wrapping "failed to count requested proofs"
            (GetNumberOfProofsWithStatus StatusREQ) ;;
        if currentRequestedProofs >=? U64.to_int64 (MaxConcurrentProofRequests l)
        then ret None
        else ret (Some p)
  end.

(** The goroutine started by [RequestQueuedProofs]; its errors are logged
    and go nowhere else. *)
Definition request_goroutine (l : L2OutputSubmitter) (p : ProofRequest)
    : World -> World :=
  fun w =>
    match UpdateProofStatus (ID p) StatusREQ w with
    | (inl _, w1) => w1
    | (inr _, w1) =>
        match RequestOPSuccinctProof l p w1 with
        | (inr _, w2) => w2
        | (inl _, w2) =>
            let (_, w3) := UpdateProofStatus (ID p) StatusFAILED w2 in
            (* If the proof fails to request from the server, we should
               retry it with a smaller span proof. *)
            let (_, w4) := RetryRequest l p w3 in
            w4
        end
    end.

(** One tick of pass B in which the goroutine it started runs to its end
    before anything else touches the ledger. *)
Definition RequestQueuedProofs_joined (l : L2OutputSubmitter) (w : World) : World :=
  match RequestQueuedProofs l w with
  | (inr (Some p), w1) => request_goroutine l p w1
  | (_, w1) => w1
  end.

(** *** Vocabulary and scenarios of the statements below *)

Definition sample_submitter : L2OutputSubmitter :=
  mkL2OutputSubmitter 3600 2 "http://localhost:3000"
    (inr (20528129, "0x6a2f"))
    (fun _ _ _ => Decoded "proof-id")
    (fun _ _ => Decoded ("PROOF_PENDING", [])).

Definition empty_world : World := mkWorld (mkLedger [] 0 []) 1700000000 [].

Definition status_url (l : L2OutputSubmitter) (proofId : string) : string :=
  (OPSuccinctServerUrl l ++ "/status/" ++ proofId)%string.

(** The world after the status of [req] was polled. *)
Definition polled (l : L2OutputSubmitter) (req : ProofRequest) (w : World) : World :=
  record_sent (mkHttpRequest "GET" (status_url l (ProverRequestID req)) None) w.

(** The world after the record [id] was moved to FAILED. *)
Definition marked_failed (id : nat) (w : World) : World :=
  with_db (with_rows (update_rows id (with_Status StatusFAILED) (rows (db w)))
             (db w)) w.

(** A prover that reports every proof as fulfilled. *)
Definition fulfilling_submitter : L2OutputSubmitter :=
  mkL2OutputSubmitter 3600 2 "http://localhost:3000"
    (inr (20528129, "0x6a2f"))
    (fun _ _ _ => Decoded "proof-id")
    (fun _ _ => Decoded (PROOF_FULFILLED, [Byte.x01; Byte.x02])).

Definition pending_request : ProofRequest :=
  mkProofRequest 0 TypeSPAN 100 199 StatusREQ "proof-id" 0 1699990000 0 "" [].

Definition pending_world : World :=
  mkWorld (mkLedger [pending_request] 1 []) 1700000000 [].

Definition span_url (l : L2OutputSubmitter) : string :=
  (OPSuccinctServerUrl l ++ "/request_span_proof")%string.

(** The request [RequestSpanProof] hands to the HTTP client. *)
Definition span_request (l : L2OutputSubmitter) (start end_ : Z) : HttpRequest :=
  mkHttpRequest "POST" (span_url l)
    (Some (JObject [("start", JNumber start); ("end", JNumber end_)])).

Definition request_created {A} (reply : HttpReply A) : bool :=
  match reply with
  | RequestInvalid _ => false
  | _ => true
  end.

(** The server takes every request it is sent. *)
Definition accepts_all (l : L2OutputSubmitter) : Prop :=
  forall history url body, exists id, server_post l history url body = Decoded id.

Definition statuses (w : World) : list ProofStatus := map Status (rows (db w)).

Definition three_spans (s0 e0 s1 e1 s2 e2 now : Z) (history : list HttpRequest)
    : World :=
  mkWorld (mkLedger [fresh_request 0 TypeSPAN s0 e0 0;
                     fresh_request 1 TypeSPAN s1 e1 0;
                     fresh_request 2 TypeSPAN s2 e2 0] 3 [])
          now history.

Definition scenario_C : World :=
  three_spans 1 100 101 200 201 300 1700000000 [].

(** A ledger with one AGG record waiting for its checkpoint, whose storage
    fails at the second operation. *)
Definition agg_without_checkpoint : World :=
  mkWorld (mkLedger [fresh_request 0 TypeAGG 1 1000 0] 1 [false; true])
          1700000000 [].

(** The records that failed before they reached the prover, and the records
    that wait for the prover: the selections of [GetProofsFailedOnServer] and
    [GetAllPendingProofs]. *)
Definition is_failed_on_server (r : ProofRequest) : bool :=
  has_status StatusFAILED r && String.eqb (ProverRequestID r) "".

Definition is_pending (r : ProofRequest) : bool :=
  has_status StatusREQ r && negb (String.eqb (ProverRequestID r) "").

(** The records [RetryRequest] hands to the ledger for [req], with the
    identifiers they get when [next] is the next one. *)
Definition retry_successors (next : nat) (req : ProofRequest) : list ProofRequest :=
  if ProofType_eqb (Type_ req) TypeAGG then
    [fresh_request next TypeAGG (StartBlock req) (EndBlock req) 0]
  else
    let m := U64.add (StartBlock req)
               (U64.sub (EndBlock req) (StartBlock req) / 2) in
    [fresh_request next TypeSPAN (StartBlock req) m 0;
     fresh_request (S next) TypeSPAN (U64.add m 1) (EndBlock req) 0].

(** The same for a list of requests retried one after the other. *)
Fixpoint retry_all (next : nat) (reqs : list ProofRequest) : list ProofRequest :=
  match reqs with
  | [] => []
  | req :: rest =>
      retry_successors next req
        ++ retry_all (List.length (retry_successors next req) + next) rest
  end.

(** A record as the retry policy creates it: unrequested, without prover
    identifier, checkpoint or proof, added at time 0. *)
Definition is_successor (r : ProofRequest) : Prop :=
  Status r = StatusUNREQ /\ ProverRequestID r = "" /\ Proof r = []
  /\ RequestAddedTime r = 0 /\ ProofRequestTime r = 0 /\ L1BlockHash r = ""
  /\ (Type_ r = TypeSPAN \/ Type_ r = TypeAGG).

(** The world after the fault schedule gave up its next entry. *)
Definition popped (w : World) : World := with_db (snd (pop_fault (db w))) w.

Definition agg_url (l : L2OutputSubmitter) : string :=
  (OPSuccinctServerUrl l ++ "/request_agg_proof")%string.

(** The request [RequestAggProof] hands to the HTTP client. *)
Definition agg_request (l : L2OutputSubmitter) (subproofs : list (list Byte.byte))
    (l1Head : string) : HttpRequest :=
  mkHttpRequest "POST" (agg_url l) (Some (AggProofRequest subproofs l1Head)).

(** What [AddL1BlockInfoToAggRequest] does to a row. *)
Definition attach_checkpoint (start end_ l1Number : Z) (l1Hash : string)
    (r : ProofRequest) : ProofRequest :=
  if is_agg_for start end_ r then with_L1BlockInfo l1Number l1Hash r else r.

(** A ledger with a completed span proof over [1, 10] and the AGG record
    over the same range, checkpointed. *)
Definition agg_ready : World :=
  mkWorld (mkLedger
             [mkProofRequest 0 TypeSPAN 1 10 StatusCOMPLETE "proof-id" 0
                1699990000 0 "" [Byte.x01];
              with_L1BlockInfo 20528129 "0x6a2f" (fresh_request 1 TypeAGG 1 10 0)]
             2 [])
          1700000000 [].

(** A ledger with a SPAN request that failed on the server. *)
Definition failed_on_server_world : World :=
  mkWorld (mkLedger [with_Status StatusFAILED (fresh_request 0 TypeSPAN 100 199 0)]
             1 [])
          1700000000 [].

(** A prover whose status endpoint cannot be reached. *)
Definition unreachable_submitter : L2OutputSubmitter :=
  mkL2OutputSubmitter 3600 2 "http://localhost:3000"
    (inr (20528129, "0x6a2f"))
    (fun _ _ _ => NetFailure (New "connection refused"))
    (fun _ _ => NetFailure (New "connection refused")).

(** The server answers no request with an identifier. *)
Definition refuses_all (l : L2OutputSubmitter) : Prop :=
  forall history url body id, server_post l history url body <> Decoded id.

(** What the goroutine of pass B leaves of a record whose request failed:
    the time of the request, and the status FAILED. *)
Definition request_failed (now : Z) (r : ProofRequest) : ProofRequest :=
  with_Status StatusFAILED
    (with_ProofRequestTime (U64.wrap now) (with_Status StatusREQ r)).

(** A ledger with one AGG record in the queue, checkpointed, and two
    records in REQ. *)
Definition agg_over_cap : World :=
  mkWorld (mkLedger
             [with_Status StatusREQ (fresh_request 0 TypeSPAN 1 5 0);
              with_Status StatusREQ (fresh_request 1 TypeSPAN 6 10 0);
              with_L1BlockInfo 20528129 "0x6a2f" (fresh_request 2 TypeAGG 1 10 0)]
             3 [])
          1700000000 [].

(** A ledger whose queue starts with an AGG record without checkpoint. *)
Definition agg_unchecked : World :=
  mkWorld (mkLedger
             [mkProofRequest 0 TypeSPAN 1 10 StatusCOMPLETE "proof-id" 0
                1699990000 0 "" [Byte.x01];
              fresh_request 1 TypeAGG 1 10 0]
             2 [])
          1700000000 [].

(** What identifies a record and its work: these fields are set at the
    insert. *)
Definition identity (r : ProofRequest) : nat * ProofType * Z * Z * Z :=
  (ID r, Type_ r, StartBlock r, EndBlock r, RequestAddedTime r).

(** [w'] has the records of [w], in the same order and with the same
    identity, and possibly more records after them. *)
Definition extends (w w' : World) : Prop :=
  exists extra,
    map identity (rows (db w')) = map identity (rows (db w)) ++ extra.

(** A computation that never removes, reorders or re-identifies a record. *)
Definition keeps_records {A} (m : M A) : Prop :=
  forall w, extends w (snd (m w)).

(** A ledger with two pending records. *)
Definition two_pending_world : World :=
  mkWorld (mkLedger
             [pending_request;
              mkProofRequest 1 TypeSPAN 200 299 StatusREQ "proof-id-2" 0
                1699990000 0 "" []]
             2 [])
          1700000000 [].

End Proposer.

(* ================================================================== *)
(** ** Package utils *)
(* ================================================================== *)

(** How a call of a Go function can end: with its results, with a non-nil
    error, in [log.Fatalf] (the process exits) or in a run-time panic. *)
Inductive outcome (A : Type) : Type :=
| Returned (a : A)
| Failed (e : error)
| Fatal (msg : string)
| Panicked (msg : string).

Arguments Returned {A} a.
Arguments Failed {A} e.
Arguments Fatal {A} msg.
Arguments Panicked {A} msg.

Module Utils.

(** *** Strings and hexadecimal (strings, fmt, encoding/hex, hexutil) *)

(** [strings.TrimPrefix(s, prefix)] *)
Definition TrimPrefix (s prefix : string) : string :=
  if String.prefix prefix s
  then String.substring (String.length prefix)
         (String.length s - String.length prefix) s
  else s.

(** A byte [10xxxxxx] continues a UTF-8 sequence. *)
Definition is_continuation_byte (c : ascii) : bool :=
  N.eqb (N.land (N_of_ascii c) 192) 128.

(** [utf8.RuneCountInString] on well-formed UTF-8, which is what
    [json.Unmarshal] stores into a string: one rune per byte that does not
    continue a sequence. *)
Fixpoint RuneCountInString (s : string) : nat :=
  match s with
  | EmptyString => O
  | String c s' =>
      ((if is_continuation_byte c then 0 else 1) + RuneCountInString s')%nat
  end.

Fixpoint zeros (n : nat) : string :=
  match n with
  | O => EmptyString
  | S n' => String "0" (zeros n')
  end.

(** [fmt.Sprintf("%064s", s)]: pad on the left with zeros up to a width of
    64 runes; a longer string is left as it is. *)
Definition Sprintf_064s (s : string) : string :=
  (zeros (64 - RuneCountInString s) ++ s)%string.

(** The value of a hexadecimal digit, in either case. *)
Definition fromHexChar (c : ascii) : option Z :=
  let n := Z.of_N (N_of_ascii c) in
  if (48 <=? n) && (n <=? 57) then Some (n - 48)
  else if (97 <=? n) && (n <=? 102) then Some (n - 97 + 10)
  else if (65 <=? n) && (n <=? 70) then Some (n - 65 + 10)
  else None.

Inductive HexError : Type :=
| ErrEmptyString
| ErrMissingPrefix
| ErrSyntax          (* hex.InvalidByteError, through hexutil's mapError *)
| ErrOddLength.      (* hex.ErrLength, through hexutil's mapError *)

Definition HexError_message (e : HexError) : string :=
  match e with
  | ErrEmptyString => "empty hex string"
  | ErrMissingPrefix => "hex string without 0x prefix"
  | ErrSyntax => "invalid hex string"
  | ErrOddLength => "hex string of odd length"
  end.

(** [hex.DecodeString]: two digits a byte, the first invalid byte is
    reported before a bad length. *)
Fixpoint hex_DecodeString (s : string) : HexError + list Z :=
  match s with
  | EmptyString => inr []
  | String p EmptyString =>
      match fromHexChar p with
      | None => inl ErrSyntax
      | Some _ => inl ErrOddLength
      end
  | String p (String q rest) =>
      match fromHexChar p, fromHexChar q with
      | Some a, Some b =>
          match hex_DecodeString rest with
          | inl e => inl e
          | inr bytes => inr (Z.lor (Z.shiftl a 4) b :: bytes)
          end
      | _, _ => inl ErrSyntax
      end
  end.

Definition has0xPrefix (input : string) : bool :=
  match input with
  | String c0 (String c1 _) =>
      Ascii.eqb c0 "0" && (Ascii.eqb c1 "x" || Ascii.eqb c1 "X")
  | _ => false
  end.

(** [hexutil.Decode] *)
Definition hexutil_Decode (input : string) : HexError + list Z :=
  match input with
  | EmptyString => inl ErrEmptyString
  | _ =>
      if has0xPrefix input
      then hex_DecodeString (String.substring 2 (String.length input - 2) input)
      else inl ErrMissingPrefix
  end.

Definition bytes_of_string (s : string) : list Z :=
  map (fun c => Z.of_N (N_of_ascii c)) (list_ascii_of_string s).

(** [common.ParseHexOrString]: tries to hexdecode, but if the prefix is
    missing it returns the raw bytes. *)
Definition ParseHexOrString (str : string) : error + list Z :=
  match hexutil_Decode str with
  | inl ErrMissingPrefix => inr (bytes_of_string str)
  | inl e => inl (New (HexError_message e))
  | inr b => inr b
  end.

(** The body of [CustomBytes32.UnmarshalJSON] from the string [s] that
    [json.Unmarshal] read from the data; the result is the new value of the
    receiver a successful call leaves behind. *)
Definition CustomBytes32_decode (s : string) : error + list Z :=
  (* Remove "0x" prefix if present *)
  let s := TrimPrefix s "0x" in
  (* Pad the string to 64 characters (32 bytes) with leading zeros *)
  let s := Sprintf_064s s in
  (* Add back the "0x" prefix *)
  let s := ("0x" ++ s)%string in
  match ParseHexOrString s with
  | inl err => inl err
  | inr bytes =>
      if negb (Nat.eqb (List.length bytes) 32)
      then inl (New "invalid length for Bytes32")
      else inr bytes
  end.

(** [UnmarshalJSON], with [json.Unmarshal] into a string as a parameter. *)
Definition UnmarshalJSON (json_Unmarshal : string -> error + string)
    (data : string) : error + list Z :=
  match json_Unmarshal data with
  | inl err => inl err
  | inr s => CustomBytes32_decode s
  end.

(** *** Span batch ranges *)

(** SpanBatchRange represents a range of L2 blocks covered by a span batch *)
Record SpanBatchRange : Type := mkSpanBatchRange {
  Start : Z;
  End_ : Z
}.

(** The fields of [rollup.Config] the derivation reads. *)
Record rollup_Config : Type := mkRollupConfig {
  Genesis_L2Time : Z;
  Genesis_L2_Number : Z;
  BlockTime : Z
}.

(** Get the L2 block number for the given L2 timestamp; [None] is the
    panic of a division by a zero block time. *)
Definition TimestampToBlock (rollupCfg : rollup_Config) (l2Timestamp : Z)
    : option Z :=
  match U64.div (U64.sub l2Timestamp (Genesis_L2Time rollupCfg))
                (BlockTime rollupCfg) with
  | None => None
  | Some q => Some (U64.add q (Genesis_L2_Number rollupCfg))
  end.

(** What [GetSpanBatchRanges] reads of a [derive.Batch]: its timestamp and,
    for a span batch, its block count.  [processFrames] appends a nil
    batch when a batch could not be derived. *)
Inductive Batch : Type :=
| SingularBatch (timestamp : Z)
| SpanBatch (timestamp : Z) (blockCount : Z)
| NilBatch.

(** [b.AsSpanBatch()] *)
Definition AsSpanBatch (b : Batch) : option Z :=
  match b with
  | SpanBatch _ blockCount => Some blockCount
  | _ => None
  end.

(** [b.GetTimestamp()]; a nil batch has none to give. *)
Definition GetTimestamp (b : Batch) : option Z :=
  match b with
  | SingularBatch ts => Some ts
  | SpanBatch ts _ => Some ts
  | NilBatch => None
  end.

(** The loop over the batches of one channel: [inl ranges] when the loop
    runs to its end, [inr o] when the function is left from inside. *)
Fixpoint range_over_batches (rollupCfg : rollup_Config) (startBlock endBlock : Z)
    (batches : list Batch) (ranges : list SpanBatchRange)
    : list SpanBatchRange + outcome (list SpanBatchRange) :=
  match batches with
  | [] => inl ranges
  | b :: rest =>
      match GetTimestamp b with
      | None => inr (Panicked "invalid memory address or nil pointer dereference")
      | Some ts =>
          match TimestampToBlock rollupCfg ts with
          | None => inr (Panicked "integer divide by zero")
          | Some batchStartBlock =>
              match AsSpanBatch b with
              | None =>
                  (* If AsSpanBatch fails, return the entire range *)
                  inr (Returned (ranges ++ [mkSpanBatchRange startBlock endBlock]))
              | Some blockCount =>
                  let batchEndBlock :=
                    U64.sub (U64.add batchStartBlock (U64.wrap blockCount)) 1 in
                  if (batchStartBlock >? endBlock) || (batchEndBlock <? startBlock)
                  then range_over_batches rollupCfg startBlock endBlock rest ranges
                  else range_over_batches rollupCfg startBlock endBlock rest
                         (ranges ++ [mkSpanBatchRange
                                       (U64.max startBlock batchStartBlock)
                                       (U64.min endBlock batchEndBlock)])
              end
          end
      end
  end.

(** The loop over the channels, in the order the map is ranged over. *)
Fixpoint range_over_channels (rollupCfg : rollup_Config) (startBlock endBlock : Z)
    (channels : list (list Batch)) (ranges : list SpanBatchRange)
    : outcome (list SpanBatchRange) :=
  match channels with
  | [] => Returned ranges
  | batches :: rest =>
      match batches with
      | [] => Fatal "no span batches in channel"
      | _ =>
          match range_over_batches rollupCfg startBlock endBlock batches ranges with
          | inl ranges' =>
              range_over_channels rollupCfg startBlock endBlock rest ranges'
          | inr o => o
          end
      end
  end.

(** Get the block ranges for each span batch in the given L2 block range.
    [channels] are the batches [processFrames] found in each channel of the
    frames on disk, in the order of the iteration over [framesByChannel]. *)
Definition GetSpanBatchRanges (rollupCfg : rollup_Config)
    (channels : list (list Batch)) (startBlock endBlock : Z)
    : outcome (list SpanBatchRange) :=
  range_over_channels rollupCfg startBlock endBlock channels [].

(** *** L1 search boundaries *)

(** The two clients, as far as the function reads them:
    [OutputAtBlock(n)] gives [output.BlockRef.L1Origin.Number] and
    [BlockByNumber(n)] gives [block.Time()]. *)
Record Clients : Type := mkClients {
  OutputAtBlock : Z -> error + Z;
  BlockByNumber : Z -> error + Z
}.

(** Get the L1 boundaries corresponding to the given L2 block range. *)
Definition GetL1SearchBoundaries (c : Clients) (startBlock endBlock : Z)
    : outcome (Z * Z) :=
  match OutputAtBlock c startBlock with
  | inl err => Failed (Errorf "failed to get output at start block" err)
  | inr startL1Origin =>
      match BlockByNumber c (U64.to_int64 startL1Origin) with
      | inl err => Failed (Errorf "failed to get block at start L1 origin" err)
      | inr startBlockTime =>
          match BlockByNumber c (U64.to_int64 (U64.sub startL1Origin 1)) with
          | inl err =>
              Failed (Errorf "failed to get block at start L1 origin - 1" err)
          | inr prevBlockTime =>
              let l1BlockTime := U64.sub startBlockTime prevBlockTime in
              match OutputAtBlock c endBlock with
              | inl err => Failed (Errorf "failed to get output at end block" err)
              | inr endOrigin =>
                  match U64.div 60 l1BlockTime with
                  | None => Panicked "integer divide by zero"
                  | Some perMinute =>
                      let endL1Origin :=
                        U64.add endOrigin (U64.mul perMinute 10) in
                      Returned (startL1Origin, endL1Origin)
                  end
              end
          end
      end
  end.

(** *** The derivation as a whole *)

(** BatchDecoderConfig holds the configuration for the batch decoder; the
    three clients it carries are in [Environment] below. *)
Record BatchDecoderConfig : Type := mkBatchDecoderConfig {
  L2GenesisTime : Z;
  L2GenesisBlock : Z;
  L2BlockTime : Z;
  BatchInboxAddress : string;
  L2StartBlock : Z;
  L2EndBlock : Z;
  L2ChainID : Z;
  BatchSender : string;
  DataDir : string
}.

(** The rollup config file of a chain: the fields of [rollup.Config] read by
    [TimestampToBlock], and the two read by the functions below. *)
Record rollup_File : Type := mkRollupFile {
  chain : rollup_Config;
  Rollup_BatchInboxAddress : string;
  L1ChainID : Z
}.

Record reassemble_Config : Type := mkReassembleConfig {
  BatchInbox : string;
  InDirectory : string;
  OutDirectory : string;
  Reassemble_L2ChainID : Z;
  Reassemble_L2GenesisTime : Z;
  Reassemble_L2BlockTime : Z
}.

Record fetch_Config : Type := mkFetchConfig {
  Fetch_Start : Z;
  Fetch_End : Z;
  Fetch_ChainID : Z;
  BatchSenders : list string;
  Fetch_BatchInbox : string;
  Fetch_OutDirectory : string;
  ConcurrentRequests : Z
}.

(** What the derivation reaches outside of itself:
    [LoadOPStackRollupConfigFromChainID], the rollup and L1 clients,
    [os.RemoveAll], and the batches that [processFrames] finds, channel by
    channel in the order of the iteration, in the frames that [fetch.Batches]
    wrote for a fetch configuration. *)
Record Environment : Type := mkEnvironment {
  load_rollup_config : Z -> error + rollup_File;
  l1_clients : Clients;
  RemoveAll : string -> option error;
  channels_fetched : fetch_Config -> reassemble_Config -> list (list Batch)
}.

(** Set up the batch decoder config: the four fields that differ from the
    rollup config are overridden.  The result is the rollup config and the
    configuration as the call leaves it. *)
Definition setupBatchDecoderConfig (env : Environment) (config : BatchDecoderConfig)
    : error + (rollup_File * BatchDecoderConfig) :=
  match load_rollup_config env (U64.wrap (L2ChainID config)) with
  | inl err => inl err
  | inr rollupCfg =>
      let config :=
        if negb (L2GenesisTime config =? Genesis_L2Time (chain rollupCfg)) then
          mkBatchDecoderConfig (Genesis_L2Time (chain rollupCfg))
            (L2GenesisBlock config) (L2BlockTime config) (BatchInboxAddress config)
            (L2StartBlock config) (L2EndBlock config) (L2ChainID config)
            (BatchSender config) (DataDir config)
        else config in
      let config :=
        if negb (L2GenesisBlock config =? Genesis_L2_Number (chain rollupCfg)) then
          mkBatchDecoderConfig (L2GenesisTime config)
            (Genesis_L2_Number (chain rollupCfg)) (L2BlockTime config)
            (BatchInboxAddress config)
            (L2StartBlock config) (L2EndBlock config) (L2ChainID config)
            (BatchSender config) (DataDir config)
        else config in
      let config :=
        if negb (L2BlockTime config =? BlockTime (chain rollupCfg)) then
          mkBatchDecoderConfig (L2GenesisTime config) (L2GenesisBlock config)
            (BlockTime (chain rollupCfg)) (BatchInboxAddress config)
            (L2StartBlock config) (L2EndBlock config) (L2ChainID config)
            (BatchSender config) (DataDir config)
        else config in
      let config :=
        if negb (String.eqb (BatchInboxAddress config)
                   (Rollup_BatchInboxAddress rollupCfg)) then
          mkBatchDecoderConfig (L2GenesisTime config) (L2GenesisBlock config)
            (L2BlockTime config) (Rollup_BatchInboxAddress rollupCfg)
            (L2StartBlock config) (L2EndBlock config) (L2ChainID config)
            (BatchSender config) (DataDir config)
        else config in
      inr (rollupCfg, config)
  end.

(** Read all of the batches posted to the BatchInbox contract in the given
    L1 block range.  The directory is cleared first; the result is the
    configuration [fetch.Batches] ran with, which decides what the directory
    holds afterwards. *)
Definition fetchBatchesBetweenL1Blocks (env : Environment)
    (config : BatchDecoderConfig) (rollupCfg : rollup_File) (l1Start l1End : Z)
    : error + fetch_Config :=
  match RemoveAll env (DataDir config) with
  | Some err => inl (Errorf "failed to clear out directory" err)
  | None =>
      inr (mkFetchConfig l1Start l1End (L1ChainID rollupCfg)
             [BatchSender config] (BatchInboxAddress config) (DataDir config) 10)
  end.

(** GetAllSpanBatchesInL2BlockRange fetches span batches within a range of
    L2 blocks. *)
Definition GetAllSpanBatchesInL2BlockRange (env : Environment)
    (config : BatchDecoderConfig) : outcome (list SpanBatchRange) :=
  match setupBatchDecoderConfig env config with
  | inl err => Failed (Errorf "failed to setup config" err)
  | inr (rollupCfg, config) =>
      match GetL1SearchBoundaries (l1_clients env)
              (L2StartBlock config) (L2EndBlock config) with
      | Failed err => Failed (Errorf "failed to get L1 origin and finalized" err)
      | Fatal msg => Fatal msg
      | Panicked msg => Panicked msg
      | Returned (l1Start, l1End) =>
          match fetchBatchesBetweenL1Blocks env config rollupCfg l1Start l1End with
          | inl err => Failed (Errorf "failed to fetch batches" err)
          | inr fetched =>
              let reassembleConfig :=
                mkReassembleConfig (BatchInboxAddress config) (DataDir config) ""
                  (L2ChainID config) (L2GenesisTime config) (L2BlockTime config) in
              match GetSpanBatchRanges (chain rollupCfg)
                      (channels_fetched env fetched reassembleConfig)
                      (L2StartBlock config) (L2EndBlock config) with
              | Failed err => Failed (Errorf "failed to get span batch ranges" err)
              | other => other
              end
          end
      end
  end.

(** *** Vocabulary and scenarios of the statements below *)

Definition two_second_blocks : rollup_Config := mkRollupConfig 0 0 2.

(** L1 clients in which every block is [blockTime] seconds after the one
    before it and every L2 block has the L1 origin [origin]. *)
Definition steady_clients (origin blockTime : Z) : Clients :=
  mkClients (fun _ => inr origin) (fun n => inr (n * blockTime)).

Definition is_hex_digit (c : ascii) : bool :=
  match fromHexChar c with
  | Some _ => true
  | None => false
  end.

(** Strings of hexadecimal digits. *)
Fixpoint all_hex (s : string) : bool :=
  match s with
  | EmptyString => true
  | String c s' => is_hex_digit c && all_hex s'
  end.

(** The hex string [s] written with 64 digits. *)
Definition padded (s : string) : string :=
  (zeros (64 - String.length s) ++ s)%string.

(** What [CustomBytes32_decode] does once the prefix is trimmed. *)
Definition decode_digits (s : string) : error + list Z :=
  match ParseHexOrString ("0x" ++ Sprintf_064s s)%string with
  | inl err => inl err
  | inr bytes =>
      if negb (Nat.eqb (List.length bytes) 32)
      then inl (New "invalid length for Bytes32")
      else inr bytes
  end.

(** The number a string of hex digits denotes, and the number a sequence of
    bytes denotes with the most significant byte first. *)
Definition digit_value (c : ascii) : Z :=
  match fromHexChar c with
  | Some d => d
  | None => 0
  end.

Fixpoint hex_value_from (acc : Z) (s : string) : Z :=
  match s with
  | EmptyString => acc
  | String c s' => hex_value_from (16 * acc + digit_value c) s'
  end.

Definition hex_value (s : string) : Z := hex_value_from 0 s.

Definition big_endian_from (acc : Z) (bytes : list Z) : Z :=
  fold_left (fun acc b => 256 * acc + b) bytes acc.

Definition big_endian (bytes : list Z) : Z := big_endian_from 0 bytes.

(** The range [GetSpanBatchRanges] keeps of a span batch, if any. *)
Definition clipped (rollupCfg : rollup_Config) (startBlock endBlock : Z) (b : Batch)
    : list SpanBatchRange :=
  match b with
  | SpanBatch ts blockCount =>
      match TimestampToBlock rollupCfg ts with
      | Some batchStartBlock =>
          let batchEndBlock :=
            U64.sub (U64.add batchStartBlock (U64.wrap blockCount)) 1 in
          if (batchStartBlock >? endBlock) || (batchEndBlock <? startBlock)
          then []
          else [mkSpanBatchRange (U64.max startBlock batchStartBlock)
                                 (U64.min endBlock batchEndBlock)]
      | None => []
      end
  | _ => []
  end.

Definition is_span_batch (b : Batch) : bool :=
  match b with
  | SpanBatch _ _ => true
  | _ => false
  end.

(** A span batch that covers at least one block and whose last block number
    fits in 64 bits. *)
Definition covers_blocks (rollupCfg : rollup_Config) (b : Batch) : Prop :=
  match b with
  | SpanBatch ts blockCount =>
      forall first,
        TimestampToBlock rollupCfg ts = Some first ->
        1 <= blockCount /\ first + blockCount <= U64.modulus
  | _ => True
  end.

(** Every range kept of the batch [b] satisfies [P]. *)
Definition clips_to (P : SpanBatchRange -> Prop) (rollupCfg : rollup_Config)
    (startBlock endBlock : Z) (b : Batch) : Prop :=
  Forall P (clipped rollupCfg startBlock endBlock b).

(** Two configurations that agree on what the caller decides: the block
    range, the chain, the batch sender and the data directory. *)
Definition same_request (c1 c2 : BatchDecoderConfig) : Prop :=
  L2StartBlock c1 = L2StartBlock c2 /\ L2EndBlock c1 = L2EndBlock c2
  /\ L2ChainID c1 = L2ChainID c2 /\ BatchSender c1 = BatchSender c2
  /\ DataDir c1 = DataDir c2.

(** A chain with two-second blocks whose batches of the window hold one span
    batch over the blocks [100, 109]. *)
Definition sample_environment : Environment :=
  mkEnvironment
    (fun _ => inr (mkRollupFile two_second_blocks "0xff00" 1))
    (steady_clients 1000 12)
    (fun _ => None)
    (fun _ _ => [[SpanBatch 200 10]]).

End Utils.

(* ================================================================== *)
(** ** Facts about machine integers *)
(* ================================================================== *)

Module U64Facts.
Import U64.

Lemma modulus_pos : 0 < modulus.
Proof. reflexivity. Qed.

Lemma wrap_small z : in_range z -> wrap z = z.
Proof. unfold in_range, wrap. intros H. now apply Z.mod_small. Qed.

Lemma wrap_in_range z : in_range (wrap z).
Proof. unfold in_range, wrap. apply Z.mod_pos_bound. exact modulus_pos. Qed.

Lemma sub_no_borrow a b : in_range a -> in_range b -> b <= a -> sub a b = a - b.
Proof.
  unfold in_range. intros Ha Hb Hle. unfold sub. apply wrap_small.
  unfold in_range. lia.
Qed.

Lemma add_no_carry a b :
  0 <= a -> 0 <= b -> a + b < modulus -> add a b = a + b.
Proof.
  intros Ha Hb Hlt. unfold add. apply wrap_small. unfold in_range. lia.
Qed.

Lemma sub_zero_one : sub 0 1 = max_value.
Proof. reflexivity. Qed.

Lemma to_int64_le z : 0 <= z -> to_int64 z <= z.
Proof.
  intros Hz. unfold to_int64.
  assert (Hm : 0 <= wrap z <= z).
  { unfold wrap. split.
    - apply Z.mod_pos_bound. exact modulus_pos.
    - apply Z.mod_le; [assumption | exact modulus_pos]. }
  cbv zeta. destruct (wrap z <? 2 ^ 63); unfold modulus; lia.
Qed.

(** The midpoint of a non-empty range stays inside it, so none of the
    operations that compute the two halves wraps around. *)
Lemma midpoint_bounds s e :
  in_range s -> in_range e -> s <= e ->
  s <= s + (e - s) / 2 <= e /\ (s < e -> s + (e - s) / 2 < e).
Proof.
  unfold in_range. intros Hs He Hle.
  assert (H2 : 0 <= (e - s) / 2) by (apply Z.div_pos; lia).
  assert (H3 : (e - s) / 2 <= e - s)
    by (apply Z.div_le_upper_bound; lia).
  split; [lia |]. intros Hlt.
  assert (H4 : (e - s) / 2 < e - s) by (apply Z.div_lt; lia).
  lia.
Qed.

Lemma midpoint_u64 s e :
  in_range s -> in_range e -> s <= e ->
  add s (sub e s / 2) = s + (e - s) / 2.
Proof.
  intros Hs He Hle.
  rewrite (sub_no_borrow e s He Hs Hle).
  destruct (midpoint_bounds s e Hs He Hle) as [[H1 H2] _].
  unfold in_range in *.
  apply add_no_carry; lia.
Qed.

End U64Facts.

(* ================================================================== *)
(** ** The retry policy *)
(* ================================================================== *)

Module RetryPolicy.
Import Proposer.

(** A ledger whose storage does not fail runs the body of an operation. *)
Lemma ledger_op_healthy {A} name (body : Z -> Ledger -> (error + A) * Ledger) w :
  faults (db w) = [] ->
  ledger_op name body w =
    (fst (body (clock w) (db w)), with_db (snd (body (clock w) (db w))) w).
Proof.
  intros Hf. unfold ledger_op, pop_fault. rewrite Hf.
  now destruct (body (clock w) (db w)).
Qed.

Lemma insert_healthy typ s e t w :
  faults (db w) = [] ->
  NewEntryWithReqAddedTimestamp typ s e t w =
    (inr tt,
     with_db (mkLedger (rows (db w) ++ [fresh_request (next_id (db w)) typ s e t])
                       (S (next_id (db w))) []) w).
Proof.
  intros Hf. unfold NewEntryWithReqAddedTimestamp.
  rewrite ledger_op_healthy by assumption. simpl. now rewrite Hf.
Qed.

(** What the two iterations of the splitting loop insert, whatever the
    range. *)
Lemma retry_span_inserts l req w :
  ProofType_eqb (Type_ req) TypeAGG = false ->
  faults (db w) = [] ->
  let s := StartBlock req in
  let m := U64.add s (U64.sub (EndBlock req) s / 2) in
  RetryRequest l req w =
    (inr tt,
     with_db (mkLedger
                (rows (db w) ++
                 [fresh_request (next_id (db w)) TypeSPAN s m 0;
                  fresh_request (S (next_id (db w))) TypeSPAN
                    (U64.add m 1) (EndBlock req) 0])
                (S (S (next_id (db w)))) []) w).
Proof.
  intros Hty Hf. cbv zeta. unfold RetryRequest. rewrite Hty.
  unfold retry_split_loop, bind.
  rewrite insert_healthy by assumption.
  rewrite insert_healthy by reflexivity.
  simpl. unfold with_db. simpl. now rewrite <- app_assoc.
Qed.

(** What a failed AGG request is replaced by. *)
Lemma retry_agg_inserts l req w :
  Type_ req = TypeAGG ->
  faults (db w) = [] ->
  RetryRequest l req w =
    (inr tt,
     with_db (mkLedger
                (rows (db w) ++
                 [fresh_request (next_id (db w)) TypeAGG
                    (StartBlock req) (EndBlock req) 0])
                (S (next_id (db w))) []) w).
Proof.
  intros Hty Hf. unfold RetryRequest. rewrite Hty. simpl.
  now apply insert_healthy.
Qed.

(** C1: for a SPAN request over [s, e] with e > s, on a ledger whose
    storage does not fail, [RetryRequest] succeeds and appends exactly two
    fresh SPAN records to the table, in state UNREQ, over
    [s, s + (e - s) / 2] and [s + (e - s) / 2 + 1, e]; both halves are
    non-empty and every block of [s, e] lies in exactly one of them. *)
Theorem retry_span_partitions :
  forall (l : L2OutputSubmitter) (w : World) (req : ProofRequest),
    Type_ req = TypeSPAN ->
    U64.in_range (StartBlock req) ->
    U64.in_range (EndBlock req) ->
    StartBlock req < EndBlock req ->
    faults (db w) = [] ->
    let s := StartBlock req in
    let e := EndBlock req in
    let m := s + (e - s) / 2 in
    RetryRequest l req w =
      (inr tt,
       with_db (mkLedger
                  (rows (db w) ++
                   [fresh_request (next_id (db w)) TypeSPAN s m 0;
                    fresh_request (S (next_id (db w))) TypeSPAN (m + 1) e 0])
                  (S (S (next_id (db w)))) []) w)
    /\ s <= m /\ m + 1 <= e
    /\ (forall b, s <= b <= e <-> (s <= b <= m \/ m + 1 <= b <= e))
    /\ (forall b, ~ (s <= b <= m /\ m + 1 <= b <= e)).
Proof.
  intros l w req Hty Hs He Hlt Hf s e m.
  assert (Hle : s <= e) by (subst s e; lia).
  destruct (U64Facts.midpoint_bounds s e Hs He Hle) as [[Hm1 Hm2] Hm3].
  specialize (Hm3 Hlt). fold m in Hm1, Hm2, Hm3.
  split.
  - rewrite (retry_span_inserts l req w) by (rewrite ?Hty; auto).
    fold s e. rewrite (U64Facts.midpoint_u64 s e Hs He Hle). fold m.
    unfold U64.in_range in Hs, He.
    rewrite U64Facts.add_no_carry by lia. reflexivity.
  - repeat split; lia.
Qed.

(** Scenario A: SPAN [100, 199] is split into [100, 149] and [150, 199]. *)
Lemma retry_span_partitions_witness :
  RetryRequest sample_submitter (fresh_request 7 TypeSPAN 100 199 0) empty_world =
    (inr tt,
     mkWorld (mkLedger [fresh_request 0 TypeSPAN 100 149 0;
                        fresh_request 1 TypeSPAN 150 199 0] 2 [])
             1700000000 []).
Proof.
  refine (proj1 (retry_span_partitions sample_submitter empty_world
                   (fresh_request 7 TypeSPAN 100 199 0) _ _ _ _ _)).
  - reflexivity.
  - unfold U64.in_range, U64.modulus; simpl; lia.
  - unfold U64.in_range, U64.modulus; simpl; lia.
  - simpl; lia.
  - reflexivity.
Defined.

(** C2: the retry policy has no guard for a SPAN request over a single
    block.  For the request over [5, 5] it reports no error and inserts two
    successor records, the second of them over the inverted range
    [6, 5]. *)
Theorem retry_single_block_inserts_inverted_range :
  RetryRequest sample_submitter (fresh_request 7 TypeSPAN 5 5 0) empty_world =
    (inr tt,
     mkWorld (mkLedger [fresh_request 0 TypeSPAN 5 5 0;
                        fresh_request 1 TypeSPAN 6 5 0] 2 [])
             1700000000 []).
Proof. reflexivity. Qed.

(** The same on every ledger whose storage does not fail and for every
    single block [s]: no error, and the records [s, s] and [s + 1, s]
    (the start of the second wraps to 0 at the last block number). *)
Lemma retry_single_block_general l req w :
  Type_ req = TypeSPAN ->
  U64.in_range (StartBlock req) ->
  EndBlock req = StartBlock req ->
  faults (db w) = [] ->
  let s := StartBlock req in
  RetryRequest l req w =
    (inr tt,
     with_db (mkLedger
                (rows (db w) ++
                 [fresh_request (next_id (db w)) TypeSPAN s s 0;
                  fresh_request (S (next_id (db w))) TypeSPAN (U64.add s 1) s 0])
                (S (S (next_id (db w)))) []) w).
Proof.
  intros Hty Hs He Hf. cbv zeta.
  rewrite (retry_span_inserts l req w) by (rewrite ?Hty; auto).
  rewrite He.
  assert (Hm : U64.add (StartBlock req)
                 (U64.sub (StartBlock req) (StartBlock req) / 2)
               = StartBlock req).
  { rewrite U64Facts.midpoint_u64; [| assumption | assumption | lia].
    rewrite Z.sub_diag. change (0 / 2) with 0. apply Z.add_0_r. }
  now rewrite Hm.
Qed.

End RetryPolicy.

(* ================================================================== *)
(** ** Facts about the ledger operations *)
(* ================================================================== *)

Module LedgerFacts.
Import Proposer.

Lemma find_row_update id f rs :
  (forall r, ID (f r) = ID r) ->
  find_row id (update_rows id f rs) = option_map f (find_row id rs).
Proof.
  intros Hid. unfold find_row, update_rows.
  induction rs as [| r rs IH]; simpl; [reflexivity |].
  destruct (Nat.eqb (ID r) id) eqn:E.
  - simpl. rewrite Hid, E. reflexivity.
  - simpl. rewrite E. exact IH.
Qed.

Lemma find_row_app_old id rs extra r :
  find_row id rs = Some r -> find_row id (rs ++ extra) = Some r.
Proof.
  unfold find_row. induction rs as [| x rs IH]; simpl; [discriminate |].
  destruct (Nat.eqb (ID x) id); auto.
Qed.

Lemma update_rows_length id f rs :
  List.length (update_rows id f rs) = List.length rs.
Proof. unfold update_rows. apply length_map. Qed.

(** Ledger operations leave the clock and the requests sent alone. *)
Lemma ledger_op_frame {A} name (body : Z -> Ledger -> (error + A) * Ledger) w :
  clock (snd (ledger_op name body w)) = clock w
  /\ sent (snd (ledger_op name body w)) = sent w.
Proof.
  unfold ledger_op. destruct (pop_fault (db w)) as [faulty d].
  destruct faulty; [now simpl |].
  destruct (body (clock w) d) as [r d']. now simpl.
Qed.

Lemma update_status_healthy id st w :
  faults (db w) = [] ->
  UpdateProofStatus id st w =
    (inr tt,
     with_db (with_rows
                (update_rows id
                   (fun r => match st with
                             | StatusREQ =>
                                 with_ProofRequestTime (U64.wrap (clock w))
                                   (with_Status st r)
                             | _ => with_Status st r
                             end)
                   (rows (db w))) (db w)) w).
Proof.
  intros Hf. unfold UpdateProofStatus.
  now rewrite RetryPolicy.ledger_op_healthy by assumption.
Qed.

Lemma add_proof_healthy id proof w r :
  faults (db w) = [] ->
  find_row id (rows (db w)) = Some r ->
  Status r = StatusREQ ->
  AddProof id proof w =
    (inr tt,
     with_db (with_rows
                (update_rows id
                   (fun r => with_Status StatusCOMPLETE (with_Proof proof r))
                   (rows (db w))) (db w)) w).
Proof.
  intros Hf Hfind Hst. unfold AddProof.
  rewrite RetryPolicy.ledger_op_healthy by assumption.
  rewrite Hfind. unfold has_status. rewrite Hst. reflexivity.
Qed.

Lemma set_prover_request_id_healthy id s w :
  faults (db w) = [] ->
  SetProverRequestID id s w =
    (inr tt,
     with_db (with_rows (update_rows id (with_ProverRequestID s) (rows (db w)))
                (db w)) w).
Proof.
  intros Hf. unfold SetProverRequestID.
  now rewrite RetryPolicy.ledger_op_healthy by assumption.
Qed.

Lemma get_next_healthy w :
  faults (db w) = [] ->
  GetNextUnrequestedProof w =
    (inr (lowest_id (filter (has_status StatusUNREQ) (rows (db w)))), w).
Proof.
  intros Hf. unfold GetNextUnrequestedProof.
  rewrite RetryPolicy.ledger_op_healthy by assumption.
  simpl. now destruct w.
Qed.

Lemma count_healthy st w :
  faults (db w) = [] ->
  GetNumberOfProofsWithStatus st w =
    (inr (count_by_status st (rows (db w))), w).
Proof.
  intros Hf. unfold GetNumberOfProofsWithStatus.
  rewrite RetryPolicy.ledger_op_healthy by assumption.
  simpl. now destruct w.
Qed.

End LedgerFacts.

(* ================================================================== *)
(** ** Pass A: the pending proofs *)
(* ================================================================== *)

Module PassA.
Import Proposer.

Lemma mark_failed_healthy id w :
  faults (db w) = [] ->
  UpdateProofStatus id StatusFAILED w = (inr tt, marked_failed id w).
Proof.
  intros Hf. now rewrite LedgerFacts.update_status_healthy by assumption.
Qed.

Lemma get_status_decoded l req w status proof :
  server_get l (sent w) (status_url l (ProverRequestID req))
    = Decoded (status, proof) ->
  GetProofStatus l (ProverRequestID req) w = (inr (status, proof), polled l req w).
Proof.
  intros Hget. unfold GetProofStatus. fold (status_url l (ProverRequestID req)).
  now rewrite Hget.
Qed.

(** C3: one pending record in pass A, on a ledger whose storage does not
    fail, once the prover answered the poll with [status] and [proof].
    (1) If the status is PROOF_FULFILLED the proof is stored and the record
    becomes COMPLETE through [AddProof], whether or not the timeout has
    elapsed.  (2) Otherwise, if the time is past
    [ProofRequestTime + ProofTimeout] (a [uint64] sum) or the status is
    PROOF_UNCLAIMED, the record is set to FAILED and [RetryRequest] runs on
    the ledger so updated.  (3) In all other cases the ledger is left as it
    was. *)
Theorem pending_proof_step :
  forall (l : L2OutputSubmitter) (w : World) (req r : ProofRequest)
         (status : string) (proof : list Byte.byte),
    faults (db w) = [] ->
    find_row (ID req) (rows (db w)) = Some r ->
    Status r = StatusREQ ->
    server_get l (sent w) (status_url l (ProverRequestID req))
      = Decoded (status, proof) ->
    let expired :=
      U64.wrap (clock w) >? U64.wrap (ProofRequestTime req + ProofTimeout l) in
    (status = PROOF_FULFILLED ->
       exists w',
         process_pending_proof l req w = (inr tt, w')
         /\ rows (db w') =
              update_rows (ID req)
                (fun r => with_Status StatusCOMPLETE (with_Proof proof r))
                (rows (db w))
         /\ find_row (ID req) (rows (db w'))
              = Some (with_Status StatusCOMPLETE (with_Proof proof r)))
    /\ (status <> PROOF_FULFILLED ->
        expired = true \/ status = PROOF_UNCLAIMED ->
          process_pending_proof l req w
            = RetryRequest l req (marked_failed (ID req) (polled l req w))
          /\ fst (process_pending_proof l req w) = inr tt
          /\ find_row (ID req) (rows (db (marked_failed (ID req) (polled l req w))))
               = Some (with_Status StatusFAILED r)
          /\ find_row (ID req) (rows (db (snd (process_pending_proof l req w))))
               = Some (with_Status StatusFAILED r))
    /\ (status <> PROOF_FULFILLED ->
        expired = false -> status <> PROOF_UNCLAIMED ->
          process_pending_proof l req w = (inr tt, polled l req w)
          /\ db (polled l req w) = db w).
Proof.
  intros l w req r status proof Hf Hfind Hst Hget expired.
  assert (Hfp : faults (db (polled l req w)) = []) by exact Hf.
  assert (Hstep : forall k : string * list Byte.byte -> M unit,
             bind (GetProofStatus l (ProverRequestID req)) k w
             = k (status, proof) (polled l req w)).
  { intros k. unfold bind. now rewrite (get_status_decoded l req w status proof). }
  assert (Hexpired : timed_out l req (clock w) = expired) by reflexivity.
  split; [| split].
  - intros ->.
    assert (Heq : process_pending_proof l req w
                  = AddProof (ID req) proof (polled l req w)).
    { unfold process_pending_proof. rewrite Hstep.
      now rewrite String.eqb_refl. }
    rewrite Heq.
    rewrite (LedgerFacts.add_proof_healthy _ _ _ r) by assumption.
    eexists. split; [reflexivity |]. split; [reflexivity |].
    simpl. rewrite LedgerFacts.find_row_update by reflexivity.
    change (rows (db (polled l req w))) with (rows (db w)).
    now rewrite Hfind.
  - intros Hnot Hor.
    apply String.eqb_neq in Hnot.
    assert (Hcond : timed_out l req (clock w)
                    || String.eqb status PROOF_UNCLAIMED = true).
    { destruct Hor as [Hexp | ->].
      - now rewrite Hexpired, Hexp.
      - rewrite String.eqb_refl. apply orb_true_r. }
    assert (Hfm : faults (db (marked_failed (ID req) (polled l req w))) = [])
      by exact Hf.
    assert (Hok : exists w2,
               RetryRequest l req (marked_failed (ID req) (polled l req w))
               = (inr tt, w2)
               /\ exists extra,
                    rows (db w2)
                    = rows (db (marked_failed (ID req) (polled l req w))) ++ extra).
    { destruct (ProofType_eqb (Type_ req) TypeAGG) eqn:Ety.
      - assert (Hagg : Type_ req = TypeAGG)
          by (destruct (Type_ req); simpl in Ety; congruence).
        rewrite (RetryPolicy.retry_agg_inserts l req _ Hagg Hfm).
        eexists. split; [reflexivity |]. eexists. reflexivity.
      - pose proof (RetryPolicy.retry_span_inserts l req _ Ety Hfm) as Hr.
        cbv zeta in Hr. rewrite Hr.
        eexists. split; [reflexivity |]. eexists. reflexivity. }
    destruct Hok as [w2 [Hret [extra Hrows]]].
    assert (Heq : process_pending_proof l req w
                  = RetryRequest l req (marked_failed (ID req) (polled l req w))).
    { unfold process_pending_proof. rewrite Hstep. rewrite Hnot.
      unfold bind at 1. unfold time_Now_Unix.
      change (clock (polled l req w)) with (clock w). rewrite Hcond.
      unfold bind. rewrite mark_failed_healthy by assumption.
      unfold wrapping. now rewrite Hret. }
    assert (Hfailed :
              find_row (ID req)
                (rows (db (marked_failed (ID req) (polled l req w))))
              = Some (with_Status StatusFAILED r)).
    { simpl. rewrite LedgerFacts.find_row_update by reflexivity.
      change (rows (db (polled l req w))) with (rows (db w)).
      now rewrite Hfind. }
    rewrite Heq, Hret.
    split; [reflexivity |]. split; [reflexivity |].
    split; [exact Hfailed |].
    simpl. rewrite Hrows. now apply LedgerFacts.find_row_app_old.
  - intros Hnot Hexp Hun.
    apply String.eqb_neq in Hnot. apply String.eqb_neq in Hun.
    unfold process_pending_proof. rewrite Hstep. rewrite Hnot.
    unfold bind, time_Now_Unix.
    change (clock (polled l req w)) with (clock w).
    rewrite Hexpired, Hexp, Hun. simpl.
    split; reflexivity.
Qed.

(** Without overflow the timeout test is the comparison of the integers. *)
Lemma timed_out_no_overflow l req now :
  U64.in_range now ->
  0 <= ProofRequestTime req -> 0 <= ProofTimeout l ->
  ProofRequestTime req + ProofTimeout l < U64.modulus ->
  timed_out l req now = true <-> now > ProofRequestTime req + ProofTimeout l.
Proof.
  intros Hnow Hr Ht Hsum. unfold timed_out.
  rewrite U64Facts.wrap_small by assumption.
  rewrite U64Facts.add_no_carry by assumption.
  rewrite Z.gtb_gt. reflexivity.
Qed.

(** A record whose timeout has elapsed and whose proof is fulfilled is
    completed. *)
Lemma pending_proof_step_witness :
  timed_out fulfilling_submitter pending_request (clock pending_world) = true
  /\ exists w',
       process_pending_proof fulfilling_submitter pending_request pending_world
         = (inr tt, w')
       /\ rows (db w') =
            update_rows (ID pending_request)
              (fun r => with_Status StatusCOMPLETE
                          (with_Proof [Byte.x01; Byte.x02] r))
              (rows (db pending_world))
       /\ find_row (ID pending_request) (rows (db w'))
            = Some (with_Status StatusCOMPLETE
                      (with_Proof [Byte.x01; Byte.x02] pending_request)).
Proof.
  split; [reflexivity |].
  exact (proj1 (pending_proof_step fulfilling_submitter pending_world
                  pending_request pending_request PROOF_FULFILLED
                  [Byte.x01; Byte.x02] eq_refl eq_refl eq_refl eq_refl)
           eq_refl).
Defined.

(** On a ledger whose storage does not fail and that holds no request that
    failed on the server, pass A is the step above run on every pending
    record in turn. *)
Lemma pass_A_steps_through_pending l w :
  faults (db w) = [] ->
  filter (fun r => has_status StatusFAILED r
                   && String.eqb (ProverRequestID r) "") (rows (db w)) = [] ->
  ProcessPendingProofs l w =
    for_each
      (filter (fun r => has_status StatusREQ r
                        && negb (String.eqb (ProverRequestID r) ""))
              (rows (db w)))
      (process_pending_proof l) w.
Proof.
  intros Hf Hnone.
  unfold ProcessPendingProofs, bind, wrapping, GetProofsFailedOnServer,
    GetAllPendingProofs.
  rewrite !RetryPolicy.ledger_op_healthy by assumption.
  cbn [fst snd]. rewrite Hnone. cbn [for_each]. unfold ret.
  assert (Hw : with_db (db w) w = w) by now destruct w.
  rewrite Hw. rewrite !RetryPolicy.ledger_op_healthy by assumption.
  cbn [fst snd]. now rewrite Hw.
Qed.

End PassA.

(* ================================================================== *)
(** ** Requests to the OP Succinct server *)
(* ================================================================== *)

Module ServerRequests.
Import Proposer.

Lemma request_span_proof_sent l start end_ w :
  request_created
    (server_post l (sent w) (span_url l) (SpanProofRequest start end_)) = true ->
  sent (snd (RequestSpanProof l start end_ w))
    = sent w ++ [span_request l start end_].
Proof.
  unfold RequestSpanProof, RequestProofFromServer.
  change (OPSuccinctServerUrl l ++ "/" ++ "request_span_proof")%string
    with (span_url l).
  destruct (server_post l (sent w) (span_url l) (SpanProofRequest start end_));
    simpl; intros H; try reflexivity; discriminate.
Qed.

Lemma wrapping_snd {A} msg (m : M A) w : snd (wrapping msg m w) = snd (m w).
Proof. unfold wrapping. now destruct (m w) as [[e | a] w']. Qed.

Lemma bind_ledger_op_sent {A B} (m : M A) name
    (body : A -> Z -> Ledger -> (error + B) * Ledger) msg w :
  sent (snd (bind m (fun a => wrapping msg (ledger_op name (body a))) w))
    = sent (snd (m w)).
Proof.
  unfold bind. destruct (m w) as [[e | a] w']; [reflexivity |].
  rewrite wrapping_snd. apply LedgerFacts.ledger_op_frame.
Qed.

(** C9: for a SPAN record over [s, e], [RequestOPSuccinctProof] computes
    [prevConfirmedBlock] as [s - 1] in [uint64] arithmetic and the request
    it sends to [request_span_proof] has the body
    [{start: s - 1, end: e}], not [start: s]; for [s = 0] the start sent is
    [2^64 - 1]. *)
Theorem span_proof_request_starts_at_previous_block :
  forall (l : L2OutputSubmitter) (w : World) (p : ProofRequest),
    Type_ p = TypeSPAN ->
    request_created
      (server_post l (sent w) (span_url l)
         (SpanProofRequest (U64.sub (StartBlock p) 1) (EndBlock p))) = true ->
    sent (snd (RequestOPSuccinctProof l p w))
      = sent w ++ [span_request l (U64.sub (StartBlock p) 1) (EndBlock p)]
    /\ (0 < StartBlock p < U64.modulus ->
        U64.sub (StartBlock p) 1 = StartBlock p - 1
        /\ U64.sub (StartBlock p) 1 <> StartBlock p)
    /\ (StartBlock p = 0 -> U64.sub (StartBlock p) 1 = 2 ^ 64 - 1).
Proof.
  intros l w p Hty Hcreated. split; [| split].
  - unfold RequestOPSuccinctProof. rewrite Hty.
    unfold SetProverRequestID. rewrite bind_ledger_op_sent.
    rewrite wrapping_snd.
    now apply request_span_proof_sent.
  - intros Hs.
    assert (H : U64.sub (StartBlock p) 1 = StartBlock p - 1).
    { unfold U64.sub. apply U64Facts.wrap_small. unfold U64.in_range. lia. }
    split; [exact H | lia].
  - intros ->. reflexivity.
Qed.

(** The request for the record over [0, 10] asks for [2^64 - 1 .. 10]. *)
Lemma span_proof_request_starts_at_previous_block_witness :
  sent (snd (RequestOPSuccinctProof sample_submitter
               (fresh_request 0 TypeSPAN 0 10 0) empty_world))
    = [span_request sample_submitter 18446744073709551615 10].
Proof.
  exact (proj1 (span_proof_request_starts_at_previous_block
                  sample_submitter empty_world
                  (fresh_request 0 TypeSPAN 0 10 0) eq_refl eq_refl)).
Defined.

(** A request the server accepts: the record gets the identifier the server
    answered with. *)
Lemma request_span_accepted l p w id :
  Type_ p = TypeSPAN ->
  faults (db w) = [] ->
  server_post l (sent w) (span_url l)
    (SpanProofRequest (U64.sub (StartBlock p) 1) (EndBlock p)) = Decoded id ->
  RequestOPSuccinctProof l p w =
    (inr tt,
     mkWorld (with_rows (update_rows (ID p) (with_ProverRequestID id)
                           (rows (db w))) (db w))
             (clock w)
             (sent w ++ [span_request l (U64.sub (StartBlock p) 1) (EndBlock p)])).
Proof.
  intros Hty Hf Hpost.
  unfold RequestOPSuccinctProof. rewrite Hty.
  unfold bind, wrapping at 1, RequestSpanProof, RequestProofFromServer.
  change (OPSuccinctServerUrl l ++ "/" ++ "request_span_proof")%string
    with (span_url l).
  rewrite Hpost. unfold wrapping.
  rewrite LedgerFacts.set_prover_request_id_healthy by exact Hf.
  reflexivity.
Qed.

End ServerRequests.

(* ================================================================== *)
(** ** Pass B: the queued proofs *)
(* ================================================================== *)

Module PassB.
Import Proposer.

(** Pass B yields when the number of records in REQ has reached the cap. *)
Lemma pass_B_yields_at_cap l w p :
  U64.in_range (MaxConcurrentProofRequests l) ->
  faults (db w) = [] ->
  lowest_id (filter (has_status StatusUNREQ) (rows (db w))) = Some p ->
  Type_ p <> TypeAGG ->
  MaxConcurrentProofRequests l <= count_by_status StatusREQ (rows (db w)) ->
  RequestQueuedProofs l w = (inr None, w).
Proof.
  intros Hmax Hf Hnext Hty Hcap.
  unfold RequestQueuedProofs, bind, wrapping at 1.
  rewrite LedgerFacts.get_next_healthy by assumption. rewrite Hnext.
  assert (Ety : ProofType_eqb (Type_ p) TypeAGG = false)
    by (destruct (Type_ p); simpl; congruence).
  rewrite Ety. unfold wrapping.
  rewrite LedgerFacts.count_healthy by assumption.
  assert (Hge : (count_by_status StatusREQ (rows (db w))
                 >=? U64.to_int64 (MaxConcurrentProofRequests l)) = true).
  { apply Z.geb_le.
    pose proof (U64Facts.to_int64_le (MaxConcurrentProofRequests l)) as Hle.
    unfold U64.in_range in Hmax. lia. }
  now rewrite Hge.
Qed.

(** Below the cap, the tick requests the one record it picked. *)
Lemma pass_B_requests_one l w p :
  accepts_all l ->
  faults (db w) = [] ->
  lowest_id (filter (has_status StatusUNREQ) (rows (db w))) = Some p ->
  Type_ p = TypeSPAN ->
  count_by_status StatusREQ (rows (db w))
    < U64.to_int64 (MaxConcurrentProofRequests l) ->
  exists id,
    RequestQueuedProofs_joined l w =
      mkWorld (with_rows
                 (update_rows (ID p) (with_ProverRequestID id)
                    (update_rows (ID p)
                       (fun r => with_ProofRequestTime (U64.wrap (clock w))
                                   (with_Status StatusREQ r))
                       (rows (db w)))) (db w))
              (clock w)
              (sent w ++ [span_request l
                            (U64.sub (StartBlock p) 1) (EndBlock p)]).
Proof.
  intros Hacc Hf Hnext Hty Hbelow.
  assert (Hpass : RequestQueuedProofs l w = (inr (Some p), w)).
  { unfold RequestQueuedProofs, bind, wrapping at 1.
    rewrite LedgerFacts.get_next_healthy by assumption. rewrite Hnext.
    rewrite Hty. change (ProofType_eqb TypeSPAN TypeAGG) with false.
    cbv beta iota. unfold wrapping.
    rewrite LedgerFacts.count_healthy by assumption.
    assert (Hge : (count_by_status StatusREQ (rows (db w))
                   >=? U64.to_int64 (MaxConcurrentProofRequests l)) = false).
    { rewrite Z.geb_leb. apply Z.leb_gt. exact Hbelow. }
    now rewrite Hge. }
  unfold RequestQueuedProofs_joined. rewrite Hpass.
  unfold request_goroutine.
  rewrite LedgerFacts.update_status_healthy by assumption.
  match goal with
  | |- context [RequestOPSuccinctProof l p ?w1] =>
      destruct (Hacc (sent w1) (span_url l)
                  (SpanProofRequest (U64.sub (StartBlock p) 1) (EndBlock p)))
        as [id Hid];
      rewrite (ServerRequests.request_span_accepted l p w1 id Hty Hf Hid)
  end.
  exists id. reflexivity.
Qed.

(** With a cap of two and three SPAN records in UNREQ, every tick requests
    one record until two are in REQ; the third stays in UNREQ. *)
Lemma three_spans_two_ticks l s0 e0 s1 e1 s2 e2 now history :
  MaxConcurrentProofRequests l = 2 ->
  accepts_all l ->
  let w0 := three_spans s0 e0 s1 e1 s2 e2 now history in
  let w1 := RequestQueuedProofs_joined l w0 in
  let w2 := RequestQueuedProofs_joined l w1 in
  let w3 := RequestQueuedProofs_joined l w2 in
  statuses w1 = [StatusREQ; StatusUNREQ; StatusUNREQ]
  /\ statuses w2 = [StatusREQ; StatusREQ; StatusUNREQ]
  /\ w3 = w2.
Proof.
  intros Hmax Hacc w0.
  destruct (pass_B_requests_one l w0 (fresh_request 0 TypeSPAN s0 e0 0))
    as [id1 H1];
    [assumption | reflexivity | reflexivity | reflexivity
     | rewrite Hmax; reflexivity |].
  rewrite H1. clear H1. intros w1. subst w0. unfold three_spans in w1.
  simpl in w1.
  destruct (pass_B_requests_one l w1 (fresh_request 1 TypeSPAN s1 e1 0))
    as [id2 H2];
    [assumption | reflexivity | reflexivity | reflexivity
     | rewrite Hmax; reflexivity |].
  rewrite H2. clear H2. intros w2. subst w1. simpl in w2.
  split; [reflexivity |]. split; [reflexivity |].
  unfold RequestQueuedProofs_joined.
  rewrite (pass_B_yields_at_cap l w2 (fresh_request 2 TypeSPAN s2 e2 0)).
  - reflexivity.
  - rewrite Hmax. unfold U64.in_range, U64.modulus. lia.
  - reflexivity.
  - reflexivity.
  - discriminate.
  - rewrite Hmax. unfold count_by_status. simpl. lia.
Qed.

(** C4, as the code has it: a tick of pass B picks one record, so with a
    cap of two and three SPAN records in UNREQ the first tick leaves
    exactly one record in REQ and two in UNREQ; the second tick brings a
    second record to REQ, and from then on the third record remains in
    UNREQ.  More generally pass B starts no request for a SPAN record, and
    leaves the ledger as it is, when the number of records in REQ is
    already at least [MaxConcurrentProofRequests]. *)
Theorem pass_B_one_request_per_tick_under_cap :
  forall l : L2OutputSubmitter,
    U64.in_range (MaxConcurrentProofRequests l) ->
    (forall (w : World) (p : ProofRequest),
        faults (db w) = [] ->
        lowest_id (filter (has_status StatusUNREQ) (rows (db w))) = Some p ->
        Type_ p <> TypeAGG ->
        MaxConcurrentProofRequests l <= count_by_status StatusREQ (rows (db w)) ->
        RequestQueuedProofs l w = (inr None, w)
        /\ RequestQueuedProofs_joined l w = w)
    /\ (MaxConcurrentProofRequests l = 2 ->
        accepts_all l ->
        forall s0 e0 s1 e1 s2 e2 now history,
          let w0 := three_spans s0 e0 s1 e1 s2 e2 now history in
          let w1 := RequestQueuedProofs_joined l w0 in
          let w2 := RequestQueuedProofs_joined l w1 in
          statuses w1 = [StatusREQ; StatusUNREQ; StatusUNREQ]
          /\ statuses w2 = [StatusREQ; StatusREQ; StatusUNREQ]
          /\ RequestQueuedProofs_joined l w2 = w2).
Proof.
  intros l Hmax. split.
  - intros w p Hf Hnext Hty Hcap.
    pose proof (pass_B_yields_at_cap l w p Hmax Hf Hnext Hty Hcap) as Hpass.
    split; [exact Hpass |].
    unfold RequestQueuedProofs_joined. now rewrite Hpass.
  - intros Htwo Hacc s0 e0 s1 e1 s2 e2 now history.
    exact (three_spans_two_ticks l s0 e0 s1 e1 s2 e2 now history Htwo Hacc).
Qed.

Lemma sample_accepts_all : accepts_all sample_submitter.
Proof. intros history url body. exists "proof-id". reflexivity. Defined.

Lemma sample_cap_in_range :
  U64.in_range (MaxConcurrentProofRequests sample_submitter).
Proof. split; [discriminate | reflexivity]. Defined.

(** Scenario C on the sample submitter, and the cap on the ledger the
    scenario ends in. *)
Lemma pass_B_one_request_per_tick_under_cap_witness :
  statuses (RequestQueuedProofs_joined sample_submitter scenario_C)
    = [StatusREQ; StatusUNREQ; StatusUNREQ]
  /\ statuses (RequestQueuedProofs_joined sample_submitter
                 (RequestQueuedProofs_joined sample_submitter
                    scenario_C))
       = [StatusREQ; StatusREQ; StatusUNREQ].
Proof.
  pose proof (proj2 (pass_B_one_request_per_tick_under_cap
                       sample_submitter sample_cap_in_range)
                eq_refl sample_accepts_all
                1 100 101 200 201 300 1700000000 []) as H.
  cbv zeta in H. exact (conj (proj1 H) (proj1 (proj2 H))).
Defined.

(** C4, as the claim has it, fails: with a cap of two and three SPAN
    records in UNREQ, one invocation of [RequestQueuedProofs] leaves no
    record in REQ before its goroutine has run and exactly one after it
    has, never two. *)
Lemma one_tick_does_not_request_two_records :
  let l := sample_submitter in
  MaxConcurrentProofRequests l = 2
  /\ count_by_status StatusUNREQ (rows (db scenario_C)) = 3
  /\ count_by_status StatusREQ
       (rows (db (snd (RequestQueuedProofs l scenario_C)))) = 0
  /\ count_by_status StatusREQ
       (rows (db (RequestQueuedProofs_joined l scenario_C))) = 1
  /\ count_by_status StatusUNREQ
       (rows (db (RequestQueuedProofs_joined l scenario_C))) = 2
  /\ count_by_status StatusREQ
       (rows (db (RequestQueuedProofs_joined l scenario_C))) <> 2.
Proof. repeat split; vm_compute; congruence. Qed.

(** An error of the checkpoint operation is returned to the caller of
    pass B. *)
Lemma checkpoint_error_is_returned l w p e :
  faults (db w) = [] ->
  lowest_id (filter (has_status StatusUNREQ) (rows (db w))) = Some p ->
  Type_ p = TypeAGG ->
  L1BlockHash p = "" ->
  checkpointBlockHash l = inl e ->
  RequestQueuedProofs l w = (inl e, w).
Proof.
  intros Hf Hnext Hty Hhash Hcp.
  unfold RequestQueuedProofs, bind, wrapping.
  rewrite LedgerFacts.get_next_healthy by assumption.
  rewrite Hnext, Hty, Hhash, Hcp. reflexivity.
Qed.

(** An error of the ledger when the checkpoint is attached is not: the
    pass reports success. *)
Lemma attach_error_is_swallowed l w w1 w2 p blockNumber blockHash e :
  GetNextUnrequestedProof w = (inr (Some p), w1) ->
  Type_ p = TypeAGG ->
  L1BlockHash p = "" ->
  checkpointBlockHash l = inr (blockNumber, blockHash) ->
  AddL1BlockInfoToAggRequest (StartBlock p) (EndBlock p) blockNumber blockHash w1
    = (inl e, w2) ->
  RequestQueuedProofs l w = (inr None, w2).
Proof.
  intros Hnext Hty Hhash Hcp Hattach.
  unfold RequestQueuedProofs, bind, wrapping, attempt.
  rewrite Hnext, Hty, Hhash, Hcp. simpl. now rewrite Hattach.
Qed.

(** C7: when [AddL1BlockInfoToAggRequest] returns an error,
    [RequestQueuedProofs] returns no error: on the ledger above the
    attachment fails with a storage error, the record keeps its empty
    checkpoint, and the pass reports success. *)
Theorem attach_checkpoint_error_not_surfaced :
  let l := sample_submitter in
  let w1 := snd (GetNextUnrequestedProof agg_without_checkpoint) in
  fst (AddL1BlockInfoToAggRequest 1 1000 20528129 "0x6a2f" w1)
    = inl (New "AddL1BlockInfoToAggRequest")
  /\ RequestQueuedProofs l agg_without_checkpoint
       = (inr None,
          mkWorld (mkLedger [fresh_request 0 TypeAGG 1 1000 0] 1 [])
                  1700000000 []).
Proof. split; reflexivity. Qed.

End PassB.

(* ================================================================== *)
(** ** Range derivation *)
(* ================================================================== *)

Module RangeDerivation.
Import Utils.

(** A batch that is not a span batch ends the loop with the ranges derived
    so far followed by the whole range. *)
Lemma fallback_appends_whole_range rollupCfg startBlock endBlock ts rest ranges block :
  TimestampToBlock rollupCfg ts = Some block ->
  range_over_batches rollupCfg startBlock endBlock (SingularBatch ts :: rest) ranges
    = inr (Returned (ranges ++ [mkSpanBatchRange startBlock endBlock])).
Proof. intros Hts. simpl. now rewrite Hts. Qed.

(** C5: a channel whose first batch is a span batch over the blocks
    [100, 109] and whose second batch is a singular batch.  For the range
    [100, 199], [GetSpanBatchRanges] returns two ranges, the one derived
    from the first batch and then the whole range, and not the whole range
    alone. *)
Theorem fallback_keeps_earlier_ranges :
  GetSpanBatchRanges two_second_blocks
    [[SpanBatch 200 10; SingularBatch 220]] 100 199
    = Returned [mkSpanBatchRange 100 109; mkSpanBatchRange 100 199]
  /\ GetSpanBatchRanges two_second_blocks
       [[SpanBatch 200 10; SingularBatch 220]] 100 199
     <> Returned [mkSpanBatchRange 100 199].
Proof. split; [reflexivity | discriminate]. Qed.

(** The function returns the whole range alone when nothing was derived
    before the batch that is not a span batch. *)
Lemma fallback_alone_when_first rollupCfg startBlock endBlock ts rest channels block :
  TimestampToBlock rollupCfg ts = Some block ->
  GetSpanBatchRanges rollupCfg ((SingularBatch ts :: rest) :: channels)
    startBlock endBlock
    = Returned [mkSpanBatchRange startBlock endBlock].
Proof.
  intros Hts. unfold GetSpanBatchRanges. simpl. now rewrite Hts.
Qed.

End RangeDerivation.

(* ================================================================== *)
(** ** L1 search boundaries *)
(* ================================================================== *)

Module SearchBoundaries.
Import Utils.

Lemma blocks_per_minute_bounds t :
  0 < t -> 0 <= 60 / t <= 60 /\ 60 / t * 10 <= 600 / t.
Proof.
  intros Ht.
  assert (H0 : 0 <= 60 / t) by (apply Z.div_pos; lia).
  assert (H1 : 60 / t <= 60) by (apply Z.div_le_upper_bound; nia).
  split; [lia |].
  apply Z.div_le_lower_bound; [lia |].
  pose proof (Z.mul_div_le 60 t Ht). nia.
Qed.

Lemma boundaries_positive_block_time c startBlock endBlock o ts tprev oe :
  OutputAtBlock c startBlock = inr o ->
  BlockByNumber c (U64.to_int64 o) = inr ts ->
  BlockByNumber c (U64.to_int64 (U64.sub o 1)) = inr tprev ->
  OutputAtBlock c endBlock = inr oe ->
  0 < U64.sub ts tprev ->
  GetL1SearchBoundaries c startBlock endBlock
    = Returned (o, U64.add oe (60 / U64.sub ts tprev * 10)).
Proof.
  intros Ho Hts Hprev Hoe Ht.
  unfold GetL1SearchBoundaries. rewrite Ho, Hts, Hprev, Hoe.
  unfold U64.div.
  assert (Hz : (U64.sub ts tprev =? 0) = false) by (apply Z.eqb_neq; lia).
  rewrite Hz.
  destruct (blocks_per_minute_bounds _ Ht) as [Hq _].
  unfold U64.mul. rewrite U64Facts.wrap_small; [reflexivity |].
  unfold U64.in_range, U64.modulus. lia.
Qed.

(** What the code computes: for every positive L1 block time [t] (the
    [uint64] difference of the timestamps of the blocks at [o_start] and
    [o_start - 1]), the upper bound is the end L1 origin plus
    [floor(60 / t) * 10] blocks, in [uint64] arithmetic.  That extension
    never exceeds [floor(600 / t)], equals it when [t] divides 60, and for
    [t = 12] is exactly 50 blocks. *)
Theorem upper_bound_adds_ten_times_blocks_per_minute :
  forall (c : Clients) (startBlock endBlock o ts tprev oe : Z),
    OutputAtBlock c startBlock = inr o ->
    BlockByNumber c (U64.to_int64 o) = inr ts ->
    BlockByNumber c (U64.to_int64 (U64.sub o 1)) = inr tprev ->
    OutputAtBlock c endBlock = inr oe ->
    let t := U64.sub ts tprev in
    0 < t ->
    GetL1SearchBoundaries c startBlock endBlock
      = Returned (o, U64.add oe (60 / t * 10))
    /\ 60 / t * 10 <= 600 / t
    /\ (60 mod t = 0 -> 60 / t * 10 = 600 / t)
    /\ (t = 12 ->
        GetL1SearchBoundaries c startBlock endBlock = Returned (o, U64.add oe 50))
    /\ (0 <= oe -> oe + 600 < U64.modulus ->
        U64.add oe (60 / t * 10) = oe + 60 / t * 10).
Proof.
  intros c startBlock endBlock o ts tprev oe Ho Hts Hprev Hoe t Ht.
  pose proof (boundaries_positive_block_time c startBlock endBlock o ts tprev oe
                Ho Hts Hprev Hoe Ht) as Hret.
  fold t in Hret.
  destruct (blocks_per_minute_bounds t Ht) as [Hq Hle].
  split; [exact Hret |]. split; [exact Hle |]. split; [| split].
  - intros Hdiv.
    apply Z.div_exact in Hdiv; [| lia].
    apply Z.div_unique_exact; [lia |].
    rewrite Z.mul_assoc, <- Hdiv. reflexivity.
  - intros H12. rewrite Hret, H12. reflexivity.
  - intros Hoe0 Hfit. apply U64Facts.add_no_carry; lia.
Qed.

(** Scenario F: a block time of 12 seconds extends the end origin by 50. *)
Lemma upper_bound_adds_ten_times_blocks_per_minute_witness :
  GetL1SearchBoundaries (steady_clients 1000 12) 5 6 = Returned (1000, 1050).
Proof.
  refine (proj1 (proj2 (proj2 (proj2
            (upper_bound_adds_ten_times_blocks_per_minute
               (steady_clients 1000 12) 5 6 1000 12000 11988 1000
               eq_refl eq_refl eq_refl eq_refl _)))) _).
  - reflexivity.
  - reflexivity.
Defined.

(** C6: with a block time of 7 seconds the upper bound is the end origin
    plus 80 blocks, not plus [floor(600 / 7) = 85] blocks; 80 blocks of 7
    seconds are 560 seconds, less than the 10 minutes the comments of the
    function ask for.  With a block time of 90 seconds the upper bound is
    not extended at all, where [floor(600 / 90)] is 6. *)
Theorem seven_second_blocks_extend_by_eighty :
  GetL1SearchBoundaries (steady_clients 1000 7) 5 6 = Returned (1000, 1080)
  /\ 600 / 7 = 85
  /\ GetL1SearchBoundaries (steady_clients 1000 7) 5 6
     <> Returned (1000, 1000 + 600 / 7)
  /\ 80 * 7 < 600
  /\ GetL1SearchBoundaries (steady_clients 1000 90) 5 6 = Returned (1000, 1000)
  /\ 600 / 90 = 6.
Proof. repeat split; try reflexivity. discriminate. Qed.

(** C10: the division of 60 by the L1 block time is not guarded.  When the
    blocks at [o_start] and [o_start - 1] carry the same timestamp and the
    four calls to the clients succeed, [GetL1SearchBoundaries] ends in the
    panic of a division by zero; and the function returns an error only
    for a call to a client that failed, so no error branch covers this
    case. *)
Theorem equal_timestamps_divide_by_zero :
  forall (c : Clients) (startBlock endBlock : Z),
    (forall o ts oe,
        OutputAtBlock c startBlock = inr o ->
        BlockByNumber c (U64.to_int64 o) = inr ts ->
        BlockByNumber c (U64.to_int64 (U64.sub o 1)) = inr ts ->
        OutputAtBlock c endBlock = inr oe ->
        GetL1SearchBoundaries c startBlock endBlock
          = Panicked "integer divide by zero")
    /\ (forall err,
        GetL1SearchBoundaries c startBlock endBlock = Failed err ->
        exists cause,
          OutputAtBlock c startBlock = inl cause
          \/ OutputAtBlock c endBlock = inl cause
          \/ exists n, BlockByNumber c n = inl cause).
Proof.
  intros c startBlock endBlock. split.
  - intros o ts oe Ho Hts Hprev Hoe.
    unfold GetL1SearchBoundaries. rewrite Ho, Hts, Hprev, Hoe.
    unfold U64.sub. rewrite Z.sub_diag. reflexivity.
  - intros err. unfold GetL1SearchBoundaries.
    destruct (OutputAtBlock c startBlock) as [e1 | o] eqn:Ho.
    { intros _. exists e1. now left. }
    destruct (BlockByNumber c (U64.to_int64 o)) as [e2 | ts] eqn:Hts.
    { intros _. exists e2. right. right. eauto. }
    destruct (BlockByNumber c (U64.to_int64 (U64.sub o 1))) as [e3 | tp] eqn:Hp.
    { intros _. exists e3. right. right. eauto. }
    destruct (OutputAtBlock c endBlock) as [e4 | oe] eqn:Hoe.
    { intros _. exists e4. right. now left. }
    destruct (U64.div 60 (U64.sub ts tp)); discriminate.
Qed.

(** Two consecutive L1 blocks with the timestamp 1700000000. *)
Lemma equal_timestamps_divide_by_zero_witness :
  GetL1SearchBoundaries
    (mkClients (fun _ => inr 1000) (fun _ => inr 1700000000)) 5 6
    = Panicked "integer divide by zero".
Proof.
  exact (proj1 (equal_timestamps_divide_by_zero
                  (mkClients (fun _ => inr 1000) (fun _ => inr 1700000000)) 5 6)
           1000 1700000000 1000 eq_refl eq_refl eq_refl eq_refl).
Defined.

End SearchBoundaries.

(* ================================================================== *)
(** ** CustomBytes32 *)
(* ================================================================== *)

Module HexPadding.
Import Utils.

Lemma decode_unfold s : CustomBytes32_decode s = decode_digits (TrimPrefix s "0x").
Proof. reflexivity. Qed.

Lemma hex_digit_facts c :
  is_hex_digit c = true ->
  is_continuation_byte c = false /\ c <> "x"%char.
Proof.
  destruct c as [b0 b1 b2 b3 b4 b5 b6 b7].
  destruct b0, b1, b2, b3, b4, b5, b6, b7; vm_compute; intros H;
    split; congruence.
Qed.

Lemma string_pair_ind (P : string -> Prop) :
  P EmptyString ->
  (forall c, P (String c EmptyString)) ->
  (forall p q rest, P rest -> P (String p (String q rest))) ->
  forall s, P s.
Proof.
  intros H0 H1 H2 s.
  assert (H : P s /\ forall c, P (String c s)).
  { induction s as [| a s [IHs IHc]].
    - split; [exact H0 | exact H1].
    - split; [apply IHc |]. intros c. now apply H2. }
  exact (proj1 H).
Qed.

Lemma rune_count_hex s :
  all_hex s = true -> RuneCountInString s = String.length s.
Proof.
  induction s as [| c s IH]; simpl; [reflexivity |].
  intros H. apply andb_prop in H. destruct H as [Hc Hs].
  destruct (hex_digit_facts c Hc) as [Hcont _].
  rewrite Hcont, IH by assumption. reflexivity.
Qed.

Lemma substring_all s : String.substring 0 (String.length s) s = s.
Proof. induction s as [| c s IH]; simpl; [reflexivity | now rewrite IH]. Qed.

Lemma prefix_empty s : String.prefix EmptyString s = true.
Proof. now destruct s. Qed.

Lemma trim_prefixed d : TrimPrefix ("0x" ++ d) "0x" = d.
Proof.
  unfold TrimPrefix. simpl. rewrite prefix_empty.
  rewrite Nat.sub_0_r. apply substring_all.
Qed.

Lemma prefix_cons a s1 b s2 :
  String.prefix (String a s1) (String b s2)
    = if ascii_dec a b then String.prefix s1 s2 else false.
Proof. reflexivity. Qed.

Lemma trim_hex d : all_hex d = true -> TrimPrefix d "0x" = d.
Proof.
  intros Hd. unfold TrimPrefix.
  destruct d as [| c0 [| c1 d]]; try reflexivity.
  - rewrite prefix_cons. now destruct (ascii_dec "0" c0).
  - simpl in Hd. apply andb_prop in Hd. destruct Hd as [_ Hd].
    apply andb_prop in Hd. destruct Hd as [H1 _].
    destruct (hex_digit_facts c1 H1) as [_ Hx].
    rewrite !prefix_cons. destruct (ascii_dec "0" c0); [| reflexivity].
    destruct (ascii_dec "x" c1); [congruence | reflexivity].
Qed.

Lemma zeros_app_facts n s :
  String.length (zeros n ++ s) = (n + String.length s)%nat
  /\ RuneCountInString (zeros n ++ s) = (n + RuneCountInString s)%nat
  /\ (all_hex s = true -> all_hex (zeros n ++ s) = true).
Proof.
  induction n as [| n [IH1 [IH2 IH3]]]; simpl; [auto |].
  rewrite IH1, IH2. auto.
Qed.

Lemma padded_facts d :
  all_hex d = true -> (String.length d <= 64)%nat ->
  Sprintf_064s d = padded d
  /\ String.length (padded d) = 64%nat
  /\ all_hex (padded d) = true
  /\ Sprintf_064s (padded d) = padded d.
Proof.
  intros Hd Hlen.
  destruct (zeros_app_facts (64 - String.length d) d) as [H1 [H2 H3]].
  assert (Hs : Sprintf_064s d = padded d)
    by (unfold Sprintf_064s, padded; now rewrite rune_count_hex).
  assert (Hl : String.length (padded d) = 64%nat)
    by (unfold padded; rewrite H1; lia).
  assert (Hh : all_hex (padded d) = true) by (apply H3; exact Hd).
  repeat split; try assumption.
  unfold Sprintf_064s. rewrite rune_count_hex, Hl by assumption.
  reflexivity.
Qed.

Lemma hex_decode_length s :
  forall bytes, hex_DecodeString s = inr bytes ->
                String.length s = (2 * List.length bytes)%nat.
Proof.
  induction s as [| c | p q rest IH] using string_pair_ind; intros bytes H.
  - simpl in H. injection H as <-. reflexivity.
  - simpl in H. destruct (fromHexChar c); discriminate.
  - simpl in H.
    destruct (fromHexChar p); [| discriminate].
    destruct (fromHexChar q); [| discriminate].
    destruct (hex_DecodeString rest) as [e | bs]; [discriminate |].
    injection H as <-. simpl. rewrite (IH bs eq_refl). lia.
Qed.

Lemma hex_decode_digits s :
  all_hex s = true -> Nat.even (String.length s) = true ->
  exists bytes, hex_DecodeString s = inr bytes.
Proof.
  induction s as [| c | p q rest IH] using string_pair_ind; intros Hh He.
  - exists []. reflexivity.
  - discriminate.
  - simpl in Hh. apply andb_prop in Hh. destruct Hh as [Hp Hh].
    apply andb_prop in Hh. destruct Hh as [Hq Hrest].
    destruct (IH Hrest He) as [bs Hbs].
    unfold is_hex_digit in Hp, Hq. simpl.
    destruct (fromHexChar p) as [a |]; [| discriminate].
    destruct (fromHexChar q) as [b |]; [| discriminate].
    rewrite Hbs. eexists. reflexivity.
Qed.

Lemma hex_decode_never_prefix_error s :
  hex_DecodeString s <> inl ErrMissingPrefix.
Proof.
  induction s as [| c | p q rest IH] using string_pair_ind; simpl.
  - discriminate.
  - destruct (fromHexChar c); discriminate.
  - destruct (fromHexChar p); [| discriminate].
    destruct (fromHexChar q); [| discriminate].
    destruct (hex_DecodeString rest) as [e | bs]; [| discriminate].
    intros H. apply IH. congruence.
Qed.

Lemma parse_prefixed s :
  ParseHexOrString ("0x" ++ s) =
    match hex_DecodeString s with
    | inl e => inl (New (HexError_message e))
    | inr b => inr b
    end.
Proof.
  unfold ParseHexOrString, hexutil_Decode. simpl.
  rewrite Nat.sub_0_r, substring_all.
  pose proof (hex_decode_never_prefix_error s) as Hne.
  destruct (hex_DecodeString s) as [[| | |] | b]; try reflexivity.
  now contradiction Hne.
Qed.

(** Sixty-four hex digits decode to thirty-two bytes. *)
Lemma decode_digits_full p :
  all_hex p = true -> String.length p = 64%nat ->
  exists bytes,
    decode_digits p = inr bytes /\ List.length bytes = 32%nat
    /\ hex_DecodeString p = inr bytes.
Proof.
  intros Hh Hlen.
  assert (Hs : Sprintf_064s p = p).
  { unfold Sprintf_064s. now rewrite rune_count_hex, Hlen by assumption. }
  destruct (hex_decode_digits p Hh) as [bytes Hb]; [now rewrite Hlen |].
  pose proof (hex_decode_length p bytes Hb) as Hl.
  assert (H32 : List.length bytes = 32%nat) by lia.
  exists bytes. unfold decode_digits.
  rewrite Hs, parse_prefixed, Hb, H32. simpl. auto.
Qed.

(** C8: decoding "0x1" gives the same 32 bytes as decoding "0x" followed
    by 63 zeros and "1".  More generally, for every string [d] of at most 64
    hex digits, decoding [d], with or without the prefix "0x", succeeds
    with the 32 bytes that its form padded on the left with zeros to 64
    digits decodes to.  Every value the decoder returns has exactly 32
    bytes, and a string of more than 64 hex digits is rejected. *)
Theorem custom_bytes32_left_pads :
  CustomBytes32_decode "0x1"
    = CustomBytes32_decode ("0x" ++ zeros 63 ++ "1")
  /\ (forall d : string,
        all_hex d = true -> (String.length d <= 64)%nat ->
        exists bytes,
          CustomBytes32_decode ("0x" ++ d) = inr bytes
          /\ CustomBytes32_decode ("0x" ++ padded d) = inr bytes
          /\ CustomBytes32_decode d = inr bytes
          /\ hex_DecodeString (padded d) = inr bytes
          /\ List.length bytes = 32%nat)
  /\ (forall (s : string) (bytes : list Z),
        CustomBytes32_decode s = inr bytes -> List.length bytes = 32%nat)
  /\ (forall d : string,
        all_hex d = true -> (64 < String.length d)%nat ->
        exists err, CustomBytes32_decode ("0x" ++ d) = inl err).
Proof.
  split; [reflexivity |]. split; [| split].
  - intros d Hd Hlen.
    destruct (padded_facts d Hd Hlen) as [Hs [Hl [Hh Hpp]]].
    destruct (decode_digits_full (padded d) Hh Hl) as [bytes [Hdec [H32 Hraw]]].
    assert (Hcore : decode_digits d = inr bytes).
    { unfold decode_digits in *. rewrite Hs. now rewrite Hpp in Hdec. }
    exists bytes. rewrite !decode_unfold, !trim_prefixed, trim_hex by assumption.
    auto.
  - intros s bytes. unfold CustomBytes32_decode.
    destruct (ParseHexOrString _) as [e | bs]; [discriminate |].
    destruct (Nat.eqb (List.length bs) 32) eqn:E; simpl; [| discriminate].
    intros H. injection H as <-. now apply Nat.eqb_eq.
  - intros d Hd Hlen.
    rewrite decode_unfold, trim_prefixed. unfold decode_digits.
    assert (Hs : Sprintf_064s d = d).
    { unfold Sprintf_064s. rewrite rune_count_hex by assumption.
      replace (64 - String.length d)%nat with 0%nat by lia. reflexivity. }
    rewrite Hs, parse_prefixed.
    destruct (hex_DecodeString d) as [e | bs] eqn:E; [eauto |].
    pose proof (hex_decode_length d bs E) as Hl.
    assert (Hne : Nat.eqb (List.length bs) 32 = false)
      by (apply Nat.eqb_neq; lia).
    rewrite Hne. simpl. eauto.
Qed.

(** The digits "ff" decode, with or without prefix, to 31 zero bytes and
    255. *)
Lemma custom_bytes32_left_pads_witness :
  exists bytes,
    CustomBytes32_decode "0xff" = inr bytes
    /\ CustomBytes32_decode ("0x" ++ padded "ff") = inr bytes
    /\ CustomBytes32_decode "ff" = inr bytes
    /\ hex_DecodeString (padded "ff") = inr bytes
    /\ List.length bytes = 32%nat.
Proof.
  apply (proj1 (proj2 custom_bytes32_left_pads) "ff").
  - reflexivity.
  - simpl. lia.
Defined.

(** The unmarshaller is the decoder applied to the string read from the
    JSON data. *)
Lemma unmarshal_decodes json_Unmarshal data s :
  json_Unmarshal data = inr s ->
  UnmarshalJSON json_Unmarshal data = CustomBytes32_decode s.
Proof. intros H. unfold UnmarshalJSON. now rewrite H. Qed.

End HexPadding.

(* ================================================================== *)
(** ** More on the retry policy *)
(* ================================================================== *)

Module RetryFacts.
Import Proposer.

Lemma popped_frame w :
  rows (db (popped w)) = rows (db w)
  /\ next_id (db (popped w)) = next_id (db w)
  /\ clock (popped w) = clock w /\ sent (popped w) = sent w.
Proof.
  unfold popped, pop_fault. destruct (faults (db w)); simpl; auto.
Qed.

(** An insert either fails, and leaves the table alone, or appends one
    fresh record. *)
Lemma insert_outcome typ s e t w :
  NewEntryWithReqAddedTimestamp typ s e t w
    = (inl (New "NewEntryWithReqAddedTimestamp"), popped w)
  \/ NewEntryWithReqAddedTimestamp typ s e t w
      = (inr tt,
         with_db (mkLedger (rows (db w) ++ [fresh_request (next_id (db w)) typ s e t])
                           (S (next_id (db w)))
                           (faults (snd (pop_fault (db w))))) w).
Proof.
  unfold NewEntryWithReqAddedTimestamp, ledger_op, popped, pop_fault.
  destruct (faults (db w)) as [| [|] fs]; simpl; auto.
Qed.

Lemma fresh_is_successor id typ s e :
  typ = TypeSPAN \/ typ = TypeAGG -> is_successor (fresh_request id typ s e 0).
Proof. intros H. unfold is_successor. simpl. tauto. Qed.

(** X1: whatever the storage does, [RetryRequest] only appends to the table:
    the records it found stay as they are, at most two records are added,
    each of them unrequested, of type SPAN or AGG, without prover
    identifier, checkpoint or proof; the clock and the HTTP traffic are not
    touched.  When it returns no error the records added are exactly the
    successors of the request: one AGG record over the same range, or the
    two SPAN halves. *)
Theorem retry_only_appends :
  forall (l : L2OutputSubmitter) (req : ProofRequest) (w : World),
    exists extra : list ProofRequest,
      rows (db (snd (RetryRequest l req w))) = rows (db w) ++ extra
      /\ Forall is_successor extra
      /\ (List.length extra <= 2)%nat
      /\ (fst (RetryRequest l req w) = inr tt ->
          extra = retry_successors (next_id (db w)) req)
      /\ clock (snd (RetryRequest l req w)) = clock w
      /\ sent (snd (RetryRequest l req w)) = sent w.
Proof.
  intros l req w.
  destruct (popped_frame w) as [Hr [Hn [Hc Hs]]].
  unfold RetryRequest, retry_successors.
  destruct (ProofType_eqb (Type_ req) TypeAGG) eqn:Ety.
  - destruct (insert_outcome TypeAGG (StartBlock req) (EndBlock req) 0 w)
      as [H | H]; rewrite H; cbn [fst snd].
    + exists []. rewrite Hr, app_nil_r. repeat split; auto. discriminate.
    + eexists. split; [reflexivity |].
      repeat split; auto. constructor; [| constructor].
      apply fresh_is_successor. now right.
  - set (m := U64.add (StartBlock req)
                (U64.sub (EndBlock req) (StartBlock req) / 2)).
    unfold retry_split_loop, bind.
    destruct (insert_outcome TypeSPAN (StartBlock req) m 0 w) as [H | H];
      rewrite H.
    + exists []. cbn [fst snd]. rewrite Hr, app_nil_r.
      repeat split; auto. discriminate.
    + match goal with
      | |- context [NewEntryWithReqAddedTimestamp _ _ _ _ ?w1] =>
          destruct (insert_outcome TypeSPAN (U64.add m 1) (EndBlock req) 0 w1)
            as [H2 | H2]; rewrite H2;
          destruct (popped_frame w1) as [Hr1 [Hn1 [Hc1 Hs1]]]
      end.
      * eexists. cbn [fst snd]. rewrite Hr1, Hc1, Hs1.
        split; [reflexivity |].
        repeat split; auto; try discriminate.
        constructor; [| constructor]. apply fresh_is_successor. now left.
      * eexists. cbn [fst snd]. simpl. rewrite <- app_assoc. simpl.
        split; [reflexivity |].
        repeat split; auto.
        constructor; [| constructor; [| constructor]];
          apply fresh_is_successor; now left.
Qed.

(** X2: a storage error in the splitting loop is returned as it is, and
    what was written before it stays: when the first insert fails nothing is
    added, and when the second insert fails the first half of the range is in
    the ledger without its second half. *)
Theorem retry_stops_at_the_failing_insert :
  forall (l : L2OutputSubmitter) (req : ProofRequest) (w : World) (fs : list bool),
    ProofType_eqb (Type_ req) TypeAGG = false ->
    let m := U64.add (StartBlock req)
               (U64.sub (EndBlock req) (StartBlock req) / 2) in
    (faults (db w) = true :: fs ->
       RetryRequest l req w
         = (inl (New "NewEntryWithReqAddedTimestamp"),
            with_db (mkLedger (rows (db w)) (next_id (db w)) fs) w))
    /\ (faults (db w) = false :: true :: fs ->
         RetryRequest l req w
           = (inl (New "NewEntryWithReqAddedTimestamp"),
              with_db (mkLedger
                         (rows (db w) ++
                          [fresh_request (next_id (db w)) TypeSPAN
                             (StartBlock req) m 0])
                         (S (next_id (db w))) fs) w)).
Proof.
  intros l req w fs Hty m.
  unfold RetryRequest. rewrite Hty. fold m.
  unfold retry_split_loop, bind, NewEntryWithReqAddedTimestamp, ledger_op,
    pop_fault.
  split; intros Hf; rewrite Hf; simpl; reflexivity.
Qed.

Lemma retry_stops_at_the_failing_insert_witness :
  RetryRequest sample_submitter (fresh_request 7 TypeSPAN 100 199 0)
    (mkWorld (mkLedger [] 0 [false; true]) 1700000000 [])
    = (inl (New "NewEntryWithReqAddedTimestamp"),
       mkWorld (mkLedger [fresh_request 0 TypeSPAN 100 149 0] 1 [])
               1700000000 []).
Proof.
  exact (proj2 (retry_stops_at_the_failing_insert sample_submitter
                  (fresh_request 7 TypeSPAN 100 199 0)
                  (mkWorld (mkLedger [] 0 [false; true]) 1700000000 [])
                  [] eq_refl) eq_refl).
Defined.

End RetryFacts.

(* ================================================================== *)
(** ** More on the requests to the server *)
(* ================================================================== *)

Module ServerFacts.
Import Proposer.

Lemma previous_block_round_trip s :
  U64.in_range s -> U64.add (U64.sub s 1) 1 = s.
Proof.
  intros Hs. unfold U64.add, U64.sub, U64.wrap.
  rewrite Z.add_mod_idemp_l by (unfold U64.modulus; lia).
  replace (s - 1 + 1) with s by lia. now apply Z.mod_small.
Qed.

(** A SPAN request the server does not answer with an identifier. *)
Lemma refused_span_request l p w :
  Type_ p = TypeSPAN ->
  (forall id,
      server_post l (sent w) (span_url l)
        (SpanProofRequest (U64.sub (StartBlock p) 1) (EndBlock p)) <> Decoded id) ->
  exists err w',
    RequestOPSuccinctProof l p w
      = (inl (Errorf "failed to request SPAN proof" err), w')
    /\ db w' = db w /\ clock w' = clock w.
Proof.
  intros Hty Hno.
  unfold RequestOPSuccinctProof. rewrite Hty.
  unfold bind, wrapping at 1, RequestSpanProof, RequestProofFromServer.
  change (OPSuccinctServerUrl l ++ "/" ++ "request_span_proof")%string
    with (span_url l).
  destruct (server_post l (sent w) (span_url l)
              (SpanProofRequest (U64.sub (StartBlock p) 1) (EndBlock p)))
    as [e | e | e | e | e | id];
    try (eexists; eexists; split; [reflexivity | split; reflexivity]).
  now contradiction (Hno id).
Qed.

(** X3: the prover identifier is written to the ledger only when the server
    answered with one.  For a SPAN record on a ledger whose storage does not
    fail: if the server answers with an identifier, the call succeeds and the
    record with the identifier of [p], and no other, gets it; on any other
    outcome of the exchange the call returns an error wrapped as "failed to
    request SPAN proof" and the ledger is exactly as it was. *)
Theorem prover_id_recorded_only_on_success :
  forall (l : L2OutputSubmitter) (p : ProofRequest) (w : World),
    Type_ p = TypeSPAN ->
    faults (db w) = [] ->
    let reply :=
      server_post l (sent w) (span_url l)
        (SpanProofRequest (U64.sub (StartBlock p) 1) (EndBlock p)) in
    (forall id, reply = Decoded id ->
       fst (RequestOPSuccinctProof l p w) = inr tt
       /\ rows (db (snd (RequestOPSuccinctProof l p w)))
           = update_rows (ID p) (with_ProverRequestID id) (rows (db w)))
    /\ ((forall id, reply <> Decoded id) ->
        (exists err,
            fst (RequestOPSuccinctProof l p w)
              = inl (Errorf "failed to request SPAN proof" err))
        /\ db (snd (RequestOPSuccinctProof l p w)) = db w).
Proof.
  intros l p w Hty Hf reply. split.
  - intros id Hid.
    rewrite (ServerRequests.request_span_accepted l p w id Hty Hf Hid).
    split; reflexivity.
  - intros Hno.
    destruct (refused_span_request l p w Hty Hno) as [err [w' [H1 [H2 _]]]].
    rewrite H1. split; [exists err; reflexivity | exact H2].
Qed.

Lemma prover_id_recorded_only_on_success_witness :
  rows (db (snd (RequestOPSuccinctProof sample_submitter
                   (fresh_request 0 TypeSPAN 1 100 0)
                   (three_spans 1 100 101 200 201 300 1700000000 []))))
    = [with_ProverRequestID "proof-id" (fresh_request 0 TypeSPAN 1 100 0);
       fresh_request 1 TypeSPAN 101 200 0;
       fresh_request 2 TypeSPAN 201 300 0].
Proof.
  exact (proj2 (proj1 (prover_id_recorded_only_on_success sample_submitter
                         (fresh_request 0 TypeSPAN 1 100 0)
                         (three_spans 1 100 101 200 201 300 1700000000 [])
                         eq_refl eq_refl)
                  "proof-id" eq_refl)).
Defined.

(** X4: for an AGG record over [s, e], [RequestOPSuccinctProof] asks the
    ledger for the span proofs of exactly [s, e]: the subtraction of one
    block and the addition in [RequestAggProof] cancel, also for [s = 0].  If
    the ledger has no such proofs, its error comes back wrapped twice and
    nothing is sent to the server; if it has, the request sent to
    [request_agg_proof] carries those proofs and the L1 block hash of the
    record. *)
Theorem agg_request_carries_the_span_proofs :
  forall (l : L2OutputSubmitter) (p : ProofRequest) (w : World),
    Type_ p = TypeAGG ->
    U64.in_range (StartBlock p) ->
    (forall e w1,
        GetConsecutiveSpanProofs (StartBlock p) (EndBlock p) w = (inl e, w1) ->
        RequestOPSuccinctProof l p w
          = (inl (Errorf "failed to request AGG proof"
                    (Errorf "failed to get subproofs" e)), w1)
        /\ sent w1 = sent w)
    /\ (forall proofs w1,
          GetConsecutiveSpanProofs (StartBlock p) (EndBlock p) w = (inr proofs, w1) ->
          request_created
            (server_post l (sent w1) (agg_url l)
               (AggProofRequest proofs (L1BlockHash p))) = true ->
          sent (snd (RequestOPSuccinctProof l p w))
            = sent w ++ [agg_request l proofs (L1BlockHash p)]).
Proof.
  intros l p w Hty Hs.
  assert (Hframe : forall r w1,
             GetConsecutiveSpanProofs (StartBlock p) (EndBlock p) w = (r, w1) ->
             sent w1 = sent w).
  { intros r w1 H.
    pose proof (LedgerFacts.ledger_op_frame "GetConsecutiveSpanProofs"
                  (fun _ d =>
                     match consecutive_span_proofs (S (List.length (rows d)))
                             (rows d) (StartBlock p) (EndBlock p) with
                     | Some proofs => (inr proofs, d)
                     | None =>
                         (inl (New "GetConsecutiveSpanProofs: no consecutive span proofs"),
                          d)
                     end) w) as [_ Hsent].
    unfold GetConsecutiveSpanProofs in H. rewrite H in Hsent. exact Hsent. }
  split.
  - intros e w1 Hget.
    unfold RequestOPSuccinctProof. rewrite Hty.
    unfold RequestAggProof, bind, wrapping.
    rewrite previous_block_round_trip by assumption. rewrite Hget.
    split; [reflexivity | exact (Hframe _ _ Hget)].
  - intros proofs w1 Hget Hcreated.
    unfold RequestOPSuccinctProof. rewrite Hty.
    unfold SetProverRequestID. rewrite ServerRequests.bind_ledger_op_sent.
    rewrite ServerRequests.wrapping_snd.
    unfold RequestAggProof, bind, wrapping.
    rewrite previous_block_round_trip by assumption. rewrite Hget.
    unfold RequestProofFromServer.
    change (OPSuccinctServerUrl l ++ "/" ++ "request_agg_proof")%string
      with (agg_url l).
    rewrite <- (Hframe _ _ Hget).
    destruct (server_post l (sent w1) (agg_url l)
                (AggProofRequest proofs (L1BlockHash p)));
      simpl in Hcreated; try discriminate; reflexivity.
Qed.

Lemma agg_request_carries_the_span_proofs_witness :
  sent (snd (RequestOPSuccinctProof sample_submitter
               (with_L1BlockInfo 20528129 "0x6a2f" (fresh_request 1 TypeAGG 1 10 0))
               agg_ready))
    = [agg_request sample_submitter [[Byte.x01]] "0x6a2f"].
Proof.
  refine (proj2 (agg_request_carries_the_span_proofs sample_submitter
                   (with_L1BlockInfo 20528129 "0x6a2f"
                      (fresh_request 1 TypeAGG 1 10 0))
                   agg_ready eq_refl _)
            [[Byte.x01]] agg_ready eq_refl eq_refl).
  split; [discriminate | reflexivity].
Defined.

End ServerFacts.

(* ================================================================== *)
(** ** More on pass A *)
(* ================================================================== *)

Module PassAFacts.
Import Proposer.

Lemma retry_healthy l req w :
  faults (db w) = [] ->
  RetryRequest l req w =
    (inr tt,
     with_db (mkLedger
                (rows (db w) ++ retry_successors (next_id (db w)) req)
                (List.length (retry_successors (next_id (db w)) req)
                 + next_id (db w))
                []) w).
Proof.
  intros Hf. unfold retry_successors.
  destruct (ProofType_eqb (Type_ req) TypeAGG) eqn:Ety.
  - assert (Hagg : Type_ req = TypeAGG)
      by (destruct (Type_ req); simpl in Ety; congruence).
    now rewrite (RetryPolicy.retry_agg_inserts l req w Hagg Hf).
  - pose proof (RetryPolicy.retry_span_inserts l req w Ety Hf) as H.
    cbv zeta in H. now rewrite H.
Qed.

Lemma retry_all_healthy l reqs :
  forall w,
    faults (db w) = [] ->
    for_each reqs
      (fun req => wrapping "failed to retry request" (RetryRequest l req)) w =
      (inr tt,
       with_db (mkLedger
                  (rows (db w) ++ retry_all (next_id (db w)) reqs)
                  (List.length (retry_all (next_id (db w)) reqs) + next_id (db w))
                  []) w).
Proof.
  induction reqs as [| req rest IH]; intros w Hf.
  - simpl. unfold ret. rewrite app_nil_r.
    destruct w as [[rs n fs] c s]. simpl in *. now subst fs.
  - cbn [for_each retry_all]. unfold bind, wrapping.
    rewrite retry_healthy by assumption.
    rewrite IH by reflexivity.
    cbn [db rows next_id with_db]. unfold with_db. cbn [db clock sent].
    rewrite length_app, <- app_assoc.
    f_equal. f_equal. f_equal. lia.
Qed.

Lemma successors_unrequested next req :
  Forall (fun r => Status r = StatusUNREQ) (retry_successors next req).
Proof.
  unfold retry_successors.
  destruct (ProofType_eqb (Type_ req) TypeAGG); repeat constructor.
Qed.

Lemma retry_all_unrequested reqs :
  forall next, Forall (fun r => Status r = StatusUNREQ) (retry_all next reqs).
Proof.
  induction reqs as [| req rest IH]; intros next; simpl; [constructor |].
  apply Forall_app. split; [apply successors_unrequested | apply IH].
Qed.

Lemma filter_unrequested_nil (f : ProofRequest -> bool) rs :
  (forall r, Status r = StatusUNREQ -> f r = false) ->
  Forall (fun r => Status r = StatusUNREQ) rs ->
  filter f rs = [].
Proof.
  intros Hf H. induction H as [| r rs Hr _ IH]; simpl; [reflexivity |].
  now rewrite (Hf r Hr).
Qed.

Lemma unrequested_not_selected r :
  Status r = StatusUNREQ ->
  is_failed_on_server r = false /\ is_pending r = false.
Proof.
  intros H. unfold is_failed_on_server, is_pending, has_status. now rewrite H.
Qed.

(** Pass A on a ledger without pending records. *)
Lemma pass_A_without_pending l w :
  faults (db w) = [] ->
  filter is_pending (rows (db w)) = [] ->
  ProcessPendingProofs l w =
    (inr tt,
     with_db (mkLedger
                (rows (db w)
                 ++ retry_all (next_id (db w))
                      (filter is_failed_on_server (rows (db w))))
                (List.length (retry_all (next_id (db w))
                                (filter is_failed_on_server (rows (db w))))
                 + next_id (db w))
                []) w).
Proof.
  intros Hf Hnone.
  unfold ProcessPendingProofs, bind, wrapping at 1, GetProofsFailedOnServer.
  rewrite RetryPolicy.ledger_op_healthy by assumption. cbn [fst snd].
  assert (Hw : with_db (db w) w = w) by now destruct w.
  rewrite Hw.
  change (fun r : ProofRequest =>
            has_status StatusFAILED r && (ProverRequestID r =? "")%string)
    with is_failed_on_server.
  rewrite retry_all_healthy by assumption.
  unfold GetAllPendingProofs.
  rewrite RetryPolicy.ledger_op_healthy by reflexivity. cbn [fst snd].
  change (fun r : ProofRequest =>
            has_status StatusREQ r && negb (ProverRequestID r =? "")%string)
    with is_pending.
  cbn [db rows with_db]. rewrite filter_app, Hnone.
  rewrite (filter_unrequested_nil is_pending (retry_all _ _)).
  - reflexivity.
  - intros r Hr. apply (unrequested_not_selected r Hr).
  - apply retry_all_unrequested.
Qed.

(** X5: pass A retries every request that failed on the server and leaves
    it as it found it, so the next pass retries it again.  On a ledger whose
    storage does not fail and that has no pending record, the pass appends
    the successors of the requests that failed on the server; the selection
    of these requests is the same after the pass as before it, and a second
    pass appends their successors a second time. *)
Theorem failed_on_server_requests_are_retried_every_pass :
  forall (l : L2OutputSubmitter) (w : World),
    faults (db w) = [] ->
    filter is_pending (rows (db w)) = [] ->
    let failed := filter is_failed_on_server (rows (db w)) in
    let w1 := snd (ProcessPendingProofs l w) in
    let w2 := snd (ProcessPendingProofs l w1) in
    fst (ProcessPendingProofs l w) = inr tt
    /\ rows (db w1) = rows (db w) ++ retry_all (next_id (db w)) failed
    /\ filter is_failed_on_server (rows (db w1)) = failed
    /\ fst (ProcessPendingProofs l w1) = inr tt
    /\ rows (db w2) =
         rows (db w) ++ retry_all (next_id (db w)) failed
                     ++ retry_all (next_id (db w1)) failed
    /\ (List.length failed <= List.length (retry_all (next_id (db w)) failed))%nat.
Proof.
  intros l w Hf Hnone failed w1 w2.
  assert (Hsel : forall rs n,
             filter is_failed_on_server (rs ++ retry_all n failed)
             = filter is_failed_on_server rs
             /\ filter is_pending (rs ++ retry_all n failed)
                = filter is_pending rs).
  { intros rs n. rewrite !filter_app.
    rewrite (filter_unrequested_nil is_failed_on_server (retry_all n failed)),
      (filter_unrequested_nil is_pending (retry_all n failed)).
    - now rewrite !app_nil_r.
    - intros r Hr. apply (unrequested_not_selected r Hr).
    - apply retry_all_unrequested.
    - intros r Hr. apply (unrequested_not_selected r Hr).
    - apply retry_all_unrequested. }
  pose proof (pass_A_without_pending l w Hf Hnone) as H1. fold failed in H1.
  assert (E1 : rows (db w1) = rows (db w) ++ retry_all (next_id (db w)) failed)
    by (subst w1; now rewrite H1).
  assert (F1 : faults (db w1) = []) by (subst w1; now rewrite H1).
  assert (P1 : filter is_pending (rows (db w1)) = [])
    by (rewrite E1; rewrite (proj2 (Hsel _ _)); exact Hnone).
  assert (S1 : filter is_failed_on_server (rows (db w1)) = failed)
    by (rewrite E1; now rewrite (proj1 (Hsel _ _))).
  pose proof (pass_A_without_pending l w1 F1 P1) as H2. rewrite S1 in H2.
  split; [now rewrite H1 |]. split; [exact E1 |]. split; [exact S1 |].
  split; [now rewrite H2 |]. split.
  - subst w2. rewrite H2. cbn [snd db rows with_db]. rewrite E1.
    now rewrite <- app_assoc.
  - clear. generalize (next_id (db w)).
    induction failed as [| r rest IH]; intros n; simpl; [lia |].
    rewrite length_app. specialize (IH (List.length (retry_successors n r) + n)%nat).
    assert (1 <= List.length (retry_successors n r))%nat.
    { unfold retry_successors.
      destruct (ProofType_eqb (Type_ r) TypeAGG); simpl; lia. }
    lia.
Qed.

(** One request that failed on the server gets its two halves twice. *)
Lemma failed_on_server_requests_are_retried_every_pass_witness :
  map (fun r => (StartBlock r, EndBlock r))
    (rows (db (snd (ProcessPendingProofs sample_submitter
                      (snd (ProcessPendingProofs sample_submitter
                              failed_on_server_world))))))
    = [(100, 199); (100, 149); (150, 199); (100, 149); (150, 199)].
Proof.
  pose proof (failed_on_server_requests_are_retried_every_pass
                sample_submitter failed_on_server_world eq_refl eq_refl) as H.
  cbv zeta in H.
  rewrite (proj1 (proj2 (proj2 (proj2 (proj2 H))))). reflexivity.
Defined.

(** Pass A on a ledger whose storage does not fail: the requests that
    failed on the server are retried, then the pending records, as they were
    selected before the retries, are stepped through. *)
Lemma pass_A_after_retries l w :
  faults (db w) = [] ->
  ProcessPendingProofs l w =
    for_each (filter is_pending (rows (db w))) (process_pending_proof l)
      (with_db (mkLedger
                  (rows (db w)
                   ++ retry_all (next_id (db w))
                        (filter is_failed_on_server (rows (db w))))
                  (List.length (retry_all (next_id (db w))
                                  (filter is_failed_on_server (rows (db w))))
                   + next_id (db w))
                  []) w).
Proof.
  intros Hf.
  unfold ProcessPendingProofs, bind, wrapping at 1, GetProofsFailedOnServer.
  rewrite RetryPolicy.ledger_op_healthy by assumption. cbn [fst snd].
  assert (Hw : with_db (db w) w = w) by now destruct w.
  rewrite Hw.
  change (fun r : ProofRequest =>
            has_status StatusFAILED r && (ProverRequestID r =? "")%string)
    with is_failed_on_server.
  rewrite retry_all_healthy by assumption.
  unfold GetAllPendingProofs.
  rewrite RetryPolicy.ledger_op_healthy by reflexivity. cbn [fst snd].
  change (fun r : ProofRequest =>
            has_status StatusREQ r && negb (ProverRequestID r =? "")%string)
    with is_pending.
  cbn [db rows with_db]. rewrite filter_app.
  rewrite (filter_unrequested_nil is_pending (retry_all _ _)).
  - rewrite app_nil_r. reflexivity.
  - intros r Hr. apply (unrequested_not_selected r Hr).
  - apply retry_all_unrequested.
Qed.

(** X6: an error of the status poll ends pass A at once.  On a ledger whose
    storage does not fail, when the poll of the first pending record fails,
    in whichever way, the pass returns an error; the ledger then holds what
    it held before and the successors of the requests that failed on the
    server (retried before the polls), and nothing else: no pending record is
    completed, failed or retried.  No record after the first is polled: the
    only request handed to the HTTP client is the poll that failed, and none
    at all when that request could not even be created. *)
Theorem poll_failure_stops_pass_A :
  forall (l : L2OutputSubmitter) (w : World) (r : ProofRequest)
         (rest : list ProofRequest),
    faults (db w) = [] ->
    filter is_pending (rows (db w)) = r :: rest ->
    (forall response,
        server_get l (sent w) (status_url l (ProverRequestID r))
          <> Decoded response) ->
    let failed := filter is_failed_on_server (rows (db w)) in
    let w' := snd (ProcessPendingProofs l w) in
    (exists err, fst (ProcessPendingProofs l w) = inl err)
    /\ rows (db w') = rows (db w) ++ retry_all (next_id (db w)) failed
    /\ (failed = [] -> db w' = db w)
    /\ sent w' =
         sent w ++
         (if request_created
               (server_get l (sent w) (status_url l (ProverRequestID r)))
          then [mkHttpRequest "GET" (status_url l (ProverRequestID r)) None]
          else []).
Proof.
  intros l w r rest Hf Hpending Hno failed w'.
  subst w'. rewrite (pass_A_after_retries l w Hf). fold failed.
  rewrite Hpending. cbn [for_each].
  set (w1 := with_db (mkLedger (rows (db w) ++ retry_all (next_id (db w)) failed)
                        (List.length (retry_all (next_id (db w)) failed)
                         + next_id (db w)) []) w).
  assert (H : exists err w2,
             process_pending_proof l r w1 = (inl err, w2)
             /\ db w2 = db w1
             /\ sent w2 =
                  sent w ++
                  (if request_created
                        (server_get l (sent w) (status_url l (ProverRequestID r)))
                   then [mkHttpRequest "GET" (status_url l (ProverRequestID r))
                           None]
                   else [])).
  { unfold process_pending_proof, bind, GetProofStatus.
    fold (status_url l (ProverRequestID r)).
    change (sent w1) with (sent w).
    destruct (server_get l (sent w) (status_url l (ProverRequestID r)))
      as [e | e | e | e | e | response];
      try (eexists; eexists; split; [reflexivity |]; split;
           [reflexivity | cbn; now rewrite ?app_nil_r]).
    now contradiction (Hno response). }
  destruct H as [err [w2 [H1 [H2 H3]]]].
  assert (E : bind (process_pending_proof l r)
                (fun _ => for_each rest (process_pending_proof l)) w1
              = (inl err, w2))
    by (unfold bind; now rewrite H1).
  rewrite E. cbn [fst snd]. rewrite H2.
  split; [exists err; reflexivity |]. split; [reflexivity |].
  split; [| exact H3].
  intros Hnone. subst w1. rewrite Hnone. cbn [retry_all List.length db with_db].
  rewrite app_nil_r. destruct w as [[rs n fs] c sn]. cbn in *. now subst fs.
Qed.

(** The prover cannot be reached and two records are pending: the pass ends
    with the poll of the first one sent, the second one not polled, and the
    ledger as it was. *)
Lemma poll_failure_stops_pass_A_witness :
  db (snd (ProcessPendingProofs unreachable_submitter two_pending_world))
    = db two_pending_world
  /\ sent (snd (ProcessPendingProofs unreachable_submitter two_pending_world))
     = [mkHttpRequest "GET" "http://localhost:3000/status/proof-id" None].
Proof.
  pose proof (poll_failure_stops_pass_A unreachable_submitter two_pending_world
                pending_request
                [mkProofRequest 1 TypeSPAN 200 299 StatusREQ "proof-id-2" 0
                   1699990000 0 "" []]
                eq_refl eq_refl
                (fun response H =>
                   eq_ind (NetFailure (New "connection refused"))
                     (fun reply => match reply with
                                   | NetFailure _ => True
                                   | _ => False
                                   end) I _ H)) as H.
  cbv zeta in H. destruct H as [_ [_ [Hdb Hsent]]].
  split; [exact (Hdb eq_refl) | exact Hsent].
Defined.

End PassAFacts.

(* ================================================================== *)
(** ** More on pass B *)
(* ================================================================== *)

Module PassBFacts.
Import Proposer.

(** X7: a SPAN request the server refuses is retried by the goroutine and
    left as a request that failed on the server.  On a ledger whose storage
    does not fail, the goroutine marks the record REQ, the request fails, the
    record is marked FAILED and its successors are appended; a record that
    had no prover identifier still has none, so [GetProofsFailedOnServer]
    selects it. *)
Theorem refused_request_is_retried_and_left_failed_on_server :
  forall (l : L2OutputSubmitter) (p : ProofRequest) (w : World),
    Type_ p = TypeSPAN ->
    faults (db w) = [] ->
    refuses_all l ->
    let w' := request_goroutine l p w in
    rows (db w') =
      update_rows (ID p) (with_Status StatusFAILED)
        (update_rows (ID p)
           (fun r => with_ProofRequestTime (U64.wrap (clock w))
                       (with_Status StatusREQ r))
           (rows (db w)))
      ++ retry_successors (next_id (db w)) p
    /\ (forall r,
          find_row (ID p) (rows (db w)) = Some r ->
          ProverRequestID r = "" ->
          find_row (ID p) (rows (db w')) = Some (request_failed (clock w) r)
          /\ is_failed_on_server (request_failed (clock w) r) = true).
Proof.
  intros l p w Hty Hf Hrefuse w'.
  assert (Hrows :
            rows (db w') =
              update_rows (ID p) (with_Status StatusFAILED)
                (update_rows (ID p)
                   (fun r => with_ProofRequestTime (U64.wrap (clock w))
                               (with_Status StatusREQ r))
                   (rows (db w)))
              ++ retry_successors (next_id (db w)) p).
  { subst w'. unfold request_goroutine.
    rewrite LedgerFacts.update_status_healthy by assumption.
    match goal with
    | |- context [RequestOPSuccinctProof l p ?w1] =>
        destruct (ServerFacts.refused_span_request l p w1 Hty
                    (fun id => Hrefuse _ _ _ id))
          as [err [w2 [H1 [H2 H3]]]];
        rewrite H1
    end.
    assert (Hf2 : faults (db w2) = []) by (rewrite H2; exact Hf).
    rewrite LedgerFacts.update_status_healthy by assumption.
    rewrite PassAFacts.retry_healthy by exact Hf2.
    cbn [db rows next_id with_db with_rows]. rewrite H2. reflexivity. }
  split; [exact Hrows |].
  intros r Hfind Hid. split.
  - rewrite Hrows. apply LedgerFacts.find_row_app_old.
    rewrite !LedgerFacts.find_row_update by reflexivity.
    rewrite Hfind. reflexivity.
  - unfold is_failed_on_server, request_failed, has_status. simpl.
    now rewrite Hid.
Qed.

Lemma unreachable_refuses_all : refuses_all unreachable_submitter.
Proof. intros history url body id. discriminate. Defined.

Lemma refused_request_is_retried_and_left_failed_on_server_witness :
  map (fun r => (Status r, StartBlock r, EndBlock r))
    (rows (db (request_goroutine unreachable_submitter
                 (fresh_request 0 TypeSPAN 100 199 0)
                 (mkWorld (mkLedger [fresh_request 0 TypeSPAN 100 199 0] 1 [])
                          1700000000 []))))
    = [(StatusFAILED, 100, 199); (StatusUNREQ, 100, 149); (StatusUNREQ, 150, 199)].
Proof.
  rewrite (proj1 (refused_request_is_retried_and_left_failed_on_server
                    unreachable_submitter (fresh_request 0 TypeSPAN 100 199 0)
                    (mkWorld (mkLedger [fresh_request 0 TypeSPAN 100 199 0] 1 [])
                             1700000000 [])
                    eq_refl eq_refl unreachable_refuses_all)).
  reflexivity.
Defined.

(** X8: the cap on concurrent requests does not apply to AGG records.  When
    the record picked is an AGG record with its L1 checkpoint attached, pass
    B starts its request without counting the records in REQ, whatever
    [MaxConcurrentProofRequests] is. *)
Theorem checkpointed_agg_is_requested_whatever_the_cap :
  forall (l : L2OutputSubmitter) (w : World) (p : ProofRequest),
    faults (db w) = [] ->
    lowest_id (filter (has_status StatusUNREQ) (rows (db w))) = Some p ->
    Type_ p = TypeAGG ->
    L1BlockHash p <> "" ->
    RequestQueuedProofs l w = (inr (Some p), w).
Proof.
  intros l w p Hf Hnext Hty Hhash.
  unfold RequestQueuedProofs, bind, wrapping.
  rewrite LedgerFacts.get_next_healthy by assumption.
  rewrite Hnext, Hty. apply String.eqb_neq in Hhash. now rewrite Hhash.
Qed.

(** Two records are in REQ, the cap is two, and the AGG record is requested. *)
Lemma checkpointed_agg_is_requested_whatever_the_cap_witness :
  count_by_status StatusREQ (rows (db agg_over_cap)) = 2
  /\ MaxConcurrentProofRequests sample_submitter = 2
  /\ RequestQueuedProofs sample_submitter agg_over_cap
     = (inr (Some (with_L1BlockInfo 20528129 "0x6a2f"
                     (fresh_request 2 TypeAGG 1 10 0))),
        agg_over_cap).
Proof.
  split; [reflexivity |]. split; [reflexivity |].
  apply (checkpointed_agg_is_requested_whatever_the_cap sample_submitter
           agg_over_cap); try reflexivity.
  discriminate.
Defined.

Lemma lowest_id_fold_map (g : ProofRequest -> ProofRequest) rs :
  (forall r, ID (g r) = ID r) ->
  forall acc,
    fold_left
      (fun acc r =>
         match acc with
         | None => Some r
         | Some a => if Nat.ltb (ID r) (ID a) then Some r else Some a
         end) (map g rs) (option_map g acc)
    = option_map g
        (fold_left
           (fun acc r =>
              match acc with
              | None => Some r
              | Some a => if Nat.ltb (ID r) (ID a) then Some r else Some a
              end) rs acc).
Proof.
  intros Hid. induction rs as [| r rs IH]; intros acc; simpl; [reflexivity |].
  destruct acc as [a |]; simpl.
  - rewrite !Hid. destruct (Nat.ltb (ID r) (ID a)); apply (IH (Some _)).
  - apply (IH (Some r)).
Qed.

Lemma lowest_id_map g rs :
  (forall r, ID (g r) = ID r) ->
  lowest_id (map g rs) = option_map g (lowest_id rs).
Proof. intros Hid. exact (lowest_id_fold_map g rs Hid None). Qed.

Lemma lowest_id_fold_in rs :
  forall acc p,
    fold_left
      (fun acc r =>
         match acc with
         | None => Some r
         | Some a => if Nat.ltb (ID r) (ID a) then Some r else Some a
         end) rs acc = Some p ->
    In p rs \/ acc = Some p.
Proof.
  induction rs as [| r rs IH]; intros acc p H; simpl in H; [now right |].
  apply IH in H. destruct H as [H | H]; [left; now right |].
  destruct acc as [a |].
  - destruct (Nat.ltb (ID r) (ID a)); injection H as <-; [left; now left | now right].
  - injection H as <-. left. now left.
Qed.

Lemma lowest_id_in rs p : lowest_id rs = Some p -> In p rs.
Proof.
  intros H. apply lowest_id_fold_in in H. destruct H as [H | H];
    [exact H | discriminate].
Qed.

Lemma filter_status_map st (g : ProofRequest -> ProofRequest) rs :
  (forall r, Status (g r) = Status r) ->
  filter (has_status st) (map g rs) = map g (filter (has_status st) rs).
Proof.
  intros Hst. induction rs as [| r rs IH]; simpl; [reflexivity |].
  assert (E : has_status st (g r) = has_status st r)
    by (unfold has_status; now rewrite Hst).
  rewrite E. destruct (has_status st r); simpl; now rewrite IH.
Qed.

Lemma attach_checkpoint_keeps s e n h r :
  ID (attach_checkpoint s e n h r) = ID r
  /\ Status (attach_checkpoint s e n h r) = Status r.
Proof. unfold attach_checkpoint. now destruct (is_agg_for s e r). Qed.

(** X9: an AGG record without checkpoint takes two ticks.  On a ledger
    whose storage does not fail, when the checkpoint operation gives a block
    number and a non-empty hash, the first tick attaches them to the AGG
    records over the range of the record picked, changes nothing else and
    starts no request; the second tick picks the record again, now with its
    checkpoint, and starts its request. *)
Theorem agg_is_checkpointed_then_requested :
  forall (l : L2OutputSubmitter) (w : World) (p : ProofRequest)
         (blockNumber : Z) (blockHash : string),
    faults (db w) = [] ->
    lowest_id (filter (has_status StatusUNREQ) (rows (db w))) = Some p ->
    Type_ p = TypeAGG ->
    L1BlockHash p = "" ->
    checkpointBlockHash l = inr (blockNumber, blockHash) ->
    blockHash <> "" ->
    let w1 := snd (RequestQueuedProofs l w) in
    fst (RequestQueuedProofs l w) = inr None
    /\ rows (db w1) =
         map (attach_checkpoint (StartBlock p) (EndBlock p) blockNumber blockHash)
           (rows (db w))
    /\ RequestQueuedProofs l w1
       = (inr (Some (with_L1BlockInfo blockNumber blockHash p)), w1).
Proof.
  intros l w p n h Hf Hnext Hty Hhash Hcp Hne w1.
  set (g := attach_checkpoint (StartBlock p) (EndBlock p) n h).
  assert (Hin : In p (rows (db w))).
  { apply lowest_id_in in Hnext. apply filter_In in Hnext. tauto. }
  assert (Hmatch : is_agg_for (StartBlock p) (EndBlock p) p = true).
  { unfold is_agg_for. now rewrite Hty, !Z.eqb_refl. }
  assert (H1 : RequestQueuedProofs l w
               = (inr None, with_db (with_rows (map g (rows (db w))) (db w)) w)).
  { unfold RequestQueuedProofs, bind, wrapping.
    rewrite LedgerFacts.get_next_healthy by assumption.
    rewrite Hnext, Hty, Hhash, Hcp.
    change (ProofType_eqb TypeAGG TypeAGG) with true.
    change (String.eqb "" "") with true. cbv beta iota.
    unfold attempt, AddL1BlockInfoToAggRequest.
    rewrite RetryPolicy.ledger_op_healthy by assumption.
    destruct (find (is_agg_for (StartBlock p) (EndBlock p)) (rows (db w)))
      as [r0 |] eqn:Efind.
    - reflexivity.
    - pose proof (find_none _ _ Efind p Hin) as Hcontra. congruence. }
  subst w1. rewrite H1. cbn [fst snd].
  split; [reflexivity |]. split; [reflexivity |].
  unfold RequestQueuedProofs, bind, wrapping.
  rewrite LedgerFacts.get_next_healthy by exact Hf.
  cbn [db rows with_db with_rows].
  rewrite (filter_status_map StatusUNREQ g)
    by (intros r; apply attach_checkpoint_keeps).
  rewrite (lowest_id_map g) by (intros r; apply attach_checkpoint_keeps).
  rewrite Hnext. cbn [option_map].
  assert (Hg : g p = with_L1BlockInfo n h p)
    by (unfold g, attach_checkpoint; now rewrite Hmatch).
  rewrite Hg. cbn [Type_ L1BlockHash with_L1BlockInfo]. rewrite Hty.
  change (ProofType_eqb TypeAGG TypeAGG) with true. cbv beta iota.
  apply String.eqb_neq in Hne. now rewrite Hne.
Qed.

Lemma agg_is_checkpointed_then_requested_witness :
  RequestQueuedProofs sample_submitter
    (snd (RequestQueuedProofs sample_submitter agg_unchecked))
    = (inr (Some (with_L1BlockInfo 20528129 "0x6a2f"
                    (fresh_request 1 TypeAGG 1 10 0))),
       snd (RequestQueuedProofs sample_submitter agg_unchecked)).
Proof.
  refine (proj2 (proj2 (agg_is_checkpointed_then_requested sample_submitter
                          agg_unchecked (fresh_request 1 TypeAGG 1 10 0)
                          20528129 "0x6a2f"
                          eq_refl eq_refl eq_refl eq_refl eq_refl _))).
  discriminate.
Defined.

End PassBFacts.

(* ================================================================== *)
(** ** What no pass does to the ledger *)
(* ================================================================== *)

Module LedgerInvariant.
Import Proposer.

Lemma extends_refl w : extends w w.
Proof. exists []. now rewrite app_nil_r. Qed.

Lemma extends_trans w1 w2 w3 : extends w1 w2 -> extends w2 w3 -> extends w1 w3.
Proof.
  intros [e1 H1] [e2 H2]. exists (e1 ++ e2).
  now rewrite H2, H1, app_assoc.
Qed.

Lemma extends_same_rows w w' : rows (db w') = rows (db w) -> extends w w'.
Proof. intros H. exists []. now rewrite H, app_nil_r. Qed.

Lemma ret_keeps {A} (a : A) : keeps_records (ret a).
Proof. intros w. apply extends_refl. Qed.

Lemma fail_keeps {A} e : keeps_records (@fail A e).
Proof. intros w. apply extends_refl. Qed.

Lemma bind_keeps {A B} (m : M A) (k : A -> M B) :
  keeps_records m -> (forall a, keeps_records (k a)) -> keeps_records (bind m k).
Proof.
  intros Hm Hk w. unfold bind. specialize (Hm w).
  destruct (m w) as [[e | a] w1]; simpl in Hm; [exact Hm |].
  exact (extends_trans _ _ _ Hm (Hk a w1)).
Qed.

Lemma wrapping_keeps {A} msg (m : M A) :
  keeps_records m -> keeps_records (wrapping msg m).
Proof.
  intros Hm w. rewrite ServerRequests.wrapping_snd. apply Hm.
Qed.

Lemma attempt_keeps {A} (m : M A) :
  keeps_records m -> keeps_records (attempt m).
Proof.
  intros Hm w. unfold attempt. specialize (Hm w). now destruct (m w).
Qed.

Lemma for_each_keeps {A} (xs : list A) (body : A -> M unit) :
  (forall x, keeps_records (body x)) -> keeps_records (for_each xs body).
Proof.
  intros Hb. induction xs as [| x xs IH]; simpl.
  - apply ret_keeps.
  - apply bind_keeps; [apply Hb | intros _; exact IH].
Qed.

(** A ledger operation keeps the records when its body does. *)
Lemma ledger_op_keeps {A} name (body : Z -> Ledger -> (error + A) * Ledger) :
  (forall now d,
      exists extra,
        map identity (rows (snd (body now d))) = map identity (rows d) ++ extra) ->
  keeps_records (ledger_op name body).
Proof.
  intros Hb w. unfold ledger_op.
  assert (Hpop : rows (snd (pop_fault (db w))) = rows (db w))
    by (unfold pop_fault; now destruct (faults (db w))).
  destruct (pop_fault (db w)) as [faulty d]. simpl in Hpop.
  destruct faulty.
  - now apply extends_same_rows.
  - destruct (Hb (clock w) d) as [extra He].
    destruct (body (clock w) d) as [r d']. simpl in *.
    exists extra. simpl. now rewrite He, Hpop.
Qed.

Lemma update_rows_identity id f rs :
  (forall r, identity (f r) = identity r) ->
  map identity (update_rows id f rs) = map identity rs.
Proof.
  intros Hf. unfold update_rows. rewrite map_map. apply map_ext.
  intros r. destruct (Nat.eqb (ID r) id); [apply Hf | reflexivity].
Qed.

Ltac same_records := intros now d; exists []; simpl; now rewrite app_nil_r.

Lemma reads_keep :
  keeps_records GetNextUnrequestedProof
  /\ keeps_records GetProofsFailedOnServer
  /\ keeps_records GetAllPendingProofs
  /\ (forall st, keeps_records (GetNumberOfProofsWithStatus st))
  /\ (forall s e, keeps_records (GetConsecutiveSpanProofs s e)).
Proof.
  repeat split; intros; apply ledger_op_keeps; try same_records.
  intros now d. exists [].
  destruct (consecutive_span_proofs _ _ _ _); simpl; now rewrite app_nil_r.
Qed.

Lemma writes_keep :
  (forall typ s e t, keeps_records (NewEntryWithReqAddedTimestamp typ s e t))
  /\ (forall id st, keeps_records (UpdateProofStatus id st))
  /\ (forall id s, keeps_records (SetProverRequestID id s))
  /\ (forall id proof, keeps_records (AddProof id proof))
  /\ (forall s e n h, keeps_records (AddL1BlockInfoToAggRequest s e n h)).
Proof.
  repeat split; intros; apply ledger_op_keeps; intros now d.
  - eexists. simpl. rewrite map_app. reflexivity.
  - exists []. simpl. rewrite app_nil_r. apply update_rows_identity.
    intros r. now destruct st.
  - exists []. simpl. rewrite app_nil_r. now apply update_rows_identity.
  - exists []. rewrite app_nil_r.
    destruct (find_row id (rows d)) as [r |]; [| reflexivity].
    destruct (has_status StatusREQ r); [| reflexivity].
    simpl. now apply update_rows_identity.
  - exists []. rewrite app_nil_r.
    destruct (find (is_agg_for s e) (rows d)) as [r |]; [| reflexivity].
    simpl. rewrite map_map. apply map_ext. intros r'.
    now destruct (is_agg_for s e r').
Qed.

Lemma server_keeps l :
  (forall path body, keeps_records (RequestProofFromServer l path body))
  /\ (forall id, keeps_records (GetProofStatus l id)).
Proof.
  split; intros; intros w.
  - unfold RequestProofFromServer.
    destruct (server_post l _ _ _); now apply extends_same_rows.
  - unfold GetProofStatus.
    destruct (server_get l _ _); now apply extends_same_rows.
Qed.

Lemma retry_keeps l req : keeps_records (RetryRequest l req).
Proof.
  unfold RetryRequest.
  destruct (ProofType_eqb (Type_ req) TypeAGG).
  - apply writes_keep.
  - simpl. repeat (apply bind_keeps; [apply writes_keep | intros _]).
    apply ret_keeps.
Qed.

Lemma request_keeps l p : keeps_records (RequestOPSuccinctProof l p).
Proof.
  unfold RequestOPSuccinctProof. apply bind_keeps.
  - destruct (Type_ p).
    + apply wrapping_keeps. apply server_keeps.
    + apply wrapping_keeps. unfold RequestAggProof. apply bind_keeps.
      * apply wrapping_keeps. apply reads_keep.
      * intros subproofs. apply server_keeps.
    + apply fail_keeps.
  - intros id. apply wrapping_keeps. apply writes_keep.
Qed.

Lemma pending_step_keeps l req : keeps_records (process_pending_proof l req).
Proof.
  unfold process_pending_proof. apply bind_keeps; [apply server_keeps |].
  intros [status proof].
  destruct (String.eqb status PROOF_FULFILLED); [apply writes_keep |].
  apply bind_keeps; [intros w; apply extends_refl |]. intros now.
  destruct (timed_out l req now || String.eqb status PROOF_UNCLAIMED).
  - apply bind_keeps; [apply writes_keep | intros _].
    apply wrapping_keeps. apply retry_keeps.
  - apply ret_keeps.
Qed.

Lemma pass_A_keeps l : keeps_records (ProcessPendingProofs l).
Proof.
  unfold ProcessPendingProofs.
  apply bind_keeps; [apply wrapping_keeps; apply reads_keep | intros failedReqs].
  apply bind_keeps.
  - apply for_each_keeps. intros req. apply wrapping_keeps. apply retry_keeps.
  - intros _. apply bind_keeps; [apply reads_keep | intros reqs].
    apply for_each_keeps. intros req. apply pending_step_keeps.
Qed.

Lemma pass_B_keeps l : keeps_records (RequestQueuedProofs l).
Proof.
  unfold RequestQueuedProofs.
  apply bind_keeps; [apply wrapping_keeps; apply reads_keep | intros next].
  destruct next as [p |]; [| apply ret_keeps].
  destruct (ProofType_eqb (Type_ p) TypeAGG).
  - destruct (String.eqb (L1BlockHash p) ""); [| apply ret_keeps].
    destruct (checkpointBlockHash l) as [e | [n h]]; [apply fail_keeps |].
    apply bind_keeps; [apply attempt_keeps; apply writes_keep | intros _].
    apply ret_keeps.
  - apply bind_keeps; [apply wrapping_keeps; apply reads_keep | intros n].
    destruct (n >=? U64.to_int64 (MaxConcurrentProofRequests l)); apply ret_keeps.
Qed.

Lemma goroutine_keeps l p w : extends w (request_goroutine l p w).
Proof.
  unfold request_goroutine.
  pose proof (proj1 (proj2 writes_keep) (ID p) StatusREQ w) as H1.
  destruct (UpdateProofStatus (ID p) StatusREQ w) as [[e | u] w1];
    simpl in H1; [exact H1 |].
  pose proof (request_keeps l p w1) as H2.
  destruct (RequestOPSuccinctProof l p w1) as [[e | u'] w2]; simpl in H2.
  - pose proof (proj1 (proj2 writes_keep) (ID p) StatusFAILED w2) as H3.
    destruct (UpdateProofStatus (ID p) StatusFAILED w2) as [r3 w3]. simpl in H3.
    pose proof (retry_keeps l p w3) as H4.
    destruct (RetryRequest l p w3) as [r4 w4]. simpl in H4.
    eauto using extends_trans.
  - eauto using extends_trans.
Qed.

(** X10: no pass removes, reorders or re-identifies a record.  Whatever the
    storage and the server do, after [RetryRequest], pass A, pass B and the
    goroutine of pass B the ledger holds the records it held before, in the
    same order and with the same identifier, type, block range and time of
    addition, possibly followed by new records. *)
Theorem passes_keep_the_records :
  forall (l : L2OutputSubmitter) (w : World),
    (forall req, extends w (snd (RetryRequest l req w)))
    /\ extends w (snd (ProcessPendingProofs l w))
    /\ extends w (snd (RequestQueuedProofs l w))
    /\ (forall p, extends w (request_goroutine l p w))
    /\ extends w (RequestQueuedProofs_joined l w).
Proof.
  intros l w.
  split; [intros req; apply retry_keeps |].
  split; [apply pass_A_keeps |].
  split; [apply pass_B_keeps |].
  split; [intros p; apply goroutine_keeps |].
  unfold RequestQueuedProofs_joined.
  pose proof (pass_B_keeps l w) as H.
  destruct (RequestQueuedProofs l w) as [[e | [p |]] w1]; simpl in H;
    try exact H.
  exact (extends_trans _ _ _ H (goroutine_keeps l p w1)).
Qed.

End LedgerInvariant.

(* ================================================================== *)
(** ** More on the range derivation *)
(* ================================================================== *)

Module RangeFacts.
Import Utils.

(** X11: [TimestampToBlock] at its edges.  It panics exactly when the block
    time is zero.  With a positive block time, a timestamp [d] seconds
    ([d] less than the block time) into the [k]-th block after genesis gives
    the genesis block number plus [k], provided nothing exceeds 64 bits.  A
    timestamp before the genesis time is not rejected: the subtraction wraps
    around and the result is a block number near [2^64 / BlockTime]. *)
Theorem timestamp_to_block_edges :
  forall (cfg : rollup_Config) (ts : Z),
    (BlockTime cfg = 0 <-> TimestampToBlock cfg ts = None)
    /\ (forall k d,
          0 < BlockTime cfg -> 0 <= k -> 0 <= d < BlockTime cfg ->
          0 <= Genesis_L2Time cfg -> 0 <= Genesis_L2_Number cfg ->
          ts = Genesis_L2Time cfg + k * BlockTime cfg + d ->
          ts < U64.modulus -> Genesis_L2_Number cfg + k < U64.modulus ->
          TimestampToBlock cfg ts = Some (Genesis_L2_Number cfg + k))
    /\ (0 < BlockTime cfg ->
        0 <= ts < Genesis_L2Time cfg -> Genesis_L2Time cfg < U64.modulus ->
        TimestampToBlock cfg ts
          = Some (U64.add ((U64.modulus - (Genesis_L2Time cfg - ts)) / BlockTime cfg)
                    (Genesis_L2_Number cfg))).
Proof.
  intros cfg ts. unfold TimestampToBlock, U64.div. split; [| split].
  - destruct (BlockTime cfg =? 0) eqn:E.
    + apply Z.eqb_eq in E. tauto.
    + apply Z.eqb_neq in E. split; [tauto | discriminate].
  - intros k d Hbt Hk Hd Hg Hn Hts Hfit Hnfit.
    assert (E : (BlockTime cfg =? 0) = false) by (apply Z.eqb_neq; lia).
    rewrite E.
    assert (Hsub : U64.sub ts (Genesis_L2Time cfg) = k * BlockTime cfg + d).
    { unfold U64.sub. rewrite U64Facts.wrap_small; [lia |].
      unfold U64.in_range. nia. }
    rewrite Hsub.
    rewrite Z.div_add_l by lia. rewrite (Z.div_small d) by lia.
    rewrite Z.add_0_r. f_equal.
    rewrite U64Facts.add_no_carry by lia. lia.
  - intros Hbt Hts Hg.
    assert (E : (BlockTime cfg =? 0) = false) by (apply Z.eqb_neq; lia).
    rewrite E. f_equal. f_equal. f_equal.
    unfold U64.sub, U64.wrap.
    replace (ts - Genesis_L2Time cfg)
      with ((U64.modulus - (Genesis_L2Time cfg - ts)) + (-1) * U64.modulus) by lia.
    rewrite Z.mod_add by (unfold U64.modulus; lia).
    apply Z.mod_small. lia.
Qed.

(** Two seconds a block from genesis at 1000, block 5: the timestamp 1021
    is in block 15. *)
Lemma timestamp_to_block_edges_witness :
  TimestampToBlock (mkRollupConfig 1000 5 2) 1021 = Some 15.
Proof.
  refine (proj1 (proj2 (timestamp_to_block_edges (mkRollupConfig 1000 5 2) 1021))
            10 1 _ _ _ _ _ _ _ _); simpl; unfold U64.modulus; lia.
Defined.

Section RangeInvariant.

Variable rollupCfg : rollup_Config.
Variables startBlock endBlock : Z.
Variable P : SpanBatchRange -> Prop.

(** [P] holds of the whole range and of every range a batch is clipped to. *)
Hypothesis P_whole : P (mkSpanBatchRange startBlock endBlock).

Let clips_to_P := clips_to P rollupCfg startBlock endBlock.

Lemma batches_preserve batches :
  Forall clips_to_P batches ->
  forall ranges,
    Forall P ranges ->
    match range_over_batches rollupCfg startBlock endBlock batches ranges with
    | inl ranges' => Forall P ranges'
    | inr (Returned ranges') => Forall P ranges'
    | inr _ => True
    end.
Proof.
  induction 1 as [| b rest Hb _ IH]; intros ranges Hr; simpl; [exact Hr |].
  destruct b as [ts | ts blockCount |]; simpl.
  - destruct (TimestampToBlock rollupCfg ts); [| exact I].
    apply Forall_app. split; [exact Hr | now constructor].
  - unfold clips_to_P, clips_to, clipped in Hb.
    destruct (TimestampToBlock rollupCfg ts) as [first |]; [| exact I].
    cbv zeta in Hb.
    destruct ((first >? endBlock)
              || (U64.sub (U64.add first (U64.wrap blockCount)) 1 <? startBlock)).
    + apply IH. exact Hr.
    + apply IH. apply Forall_app. split; [exact Hr | exact Hb].
  - exact I.
Qed.

Lemma channels_preserve channels :
  Forall (Forall clips_to_P) channels ->
  forall ranges,
    Forall P ranges ->
    match range_over_channels rollupCfg startBlock endBlock channels ranges with
    | Returned ranges' => Forall P ranges'
    | _ => True
    end.
Proof.
  induction 1 as [| batches rest Hb _ IH]; intros ranges Hr; simpl; [exact Hr |].
  destruct batches as [| b bs]; [exact I |].
  pose proof (batches_preserve (b :: bs) Hb ranges Hr) as H.
  destruct (range_over_batches rollupCfg startBlock endBlock (b :: bs) ranges)
    as [ranges' | [ranges' | e | m | m]]; try exact I.
  - apply IH. exact H.
  - exact H.
Qed.

End RangeInvariant.

Lemma u64_max_min_bounds a b :
  a <= U64.max a b /\ b <= U64.max a b /\ U64.min a b <= a /\ U64.min a b <= b.
Proof.
  unfold U64.max, U64.min.
  destruct (a <? b) eqn:E1; destruct (b <? a) eqn:E2;
    rewrite ?Z.ltb_lt, ?Z.ltb_ge in *; lia.
Qed.

Lemma returned_ranges_within cfg channels s e :
  forall ranges,
    range_over_channels cfg s e channels [] = Returned ranges ->
    Forall (fun r => s <= Start r /\ End_ r <= e) ranges.
Proof.
  intros ranges Hret.
  pose proof (channels_preserve cfg s e
                (fun r => s <= Start r /\ End_ r <= e)) as H.
  specialize (H ltac:(simpl; lia) channels).
  assert (Hall : Forall (Forall (clips_to
                   (fun r => s <= Start r /\ End_ r <= e) cfg s e)) channels).
  { apply Forall_forall. intros bs _. apply Forall_forall. intros b _.
    unfold clips_to, clipped. destruct b as [ts | ts n |]; try constructor.
    destruct (TimestampToBlock cfg ts) as [first |]; [| constructor].
    cbv zeta. destruct (_ || _); constructor; [| constructor]. simpl.
    pose proof (u64_max_min_bounds s first).
    pose proof (u64_max_min_bounds e (U64.sub (U64.add first (U64.wrap n)) 1)).
    lia. }
  specialize (H Hall [] (Forall_nil _)). now rewrite Hret in H.
Qed.

(** X12: the ranges [GetSpanBatchRanges] returns lie within the range asked
    for, whatever the batches are: every range starts at or after
    [startBlock] and ends at or before [endBlock].  When [startBlock] is not
    after [endBlock] and every span batch covers at least one block without
    exceeding 64 bits, no range returned is empty or inverted. *)
Theorem ranges_lie_within_the_request :
  forall (cfg : rollup_Config) (channels : list (list Batch))
         (startBlock endBlock : Z) (ranges : list SpanBatchRange),
    GetSpanBatchRanges cfg channels startBlock endBlock = Returned ranges ->
    Forall (fun r => startBlock <= Start r /\ End_ r <= endBlock) ranges
    /\ (startBlock <= endBlock ->
        Forall (Forall (covers_blocks cfg)) channels ->
        Forall (fun r => Start r <= End_ r) ranges).
Proof.
  intros cfg channels s e ranges Hret. unfold GetSpanBatchRanges in Hret. split.
  - now apply (returned_ranges_within cfg channels s e).
  - intros Hse Hcov.
    pose proof (channels_preserve cfg s e (fun r => Start r <= End_ r)) as H.
    specialize (H ltac:(simpl; lia) channels).
    assert (Hall : Forall (Forall (clips_to
                     (fun r => Start r <= End_ r) cfg s e)) channels).
    { eapply Forall_impl; [| exact Hcov]. intros bs Hbs.
      eapply Forall_impl; [| exact Hbs]. intros b Hb.
      unfold clips_to, clipped. destruct b as [ts | ts n |]; try constructor.
      destruct (TimestampToBlock cfg ts) as [first |] eqn:Ets; [| constructor].
      cbv zeta.
      destruct (Hb first Ets) as [Hn Hfit].
      assert (Hfirst : 0 <= first < U64.modulus).
      { unfold TimestampToBlock in Ets.
        destruct (U64.div _ _); [| discriminate]. injection Ets as <-.
        apply U64Facts.wrap_in_range. }
      assert (Hend : U64.sub (U64.add first (U64.wrap n)) 1 = first + n - 1).
      { unfold U64.sub, U64.add, U64.wrap.
        rewrite Zplus_mod_idemp_r, Zminus_mod_idemp_l.
        apply Z.mod_small. lia. }
      rewrite Hend.
      destruct ((first >? e) || (first + n - 1 <? s)) eqn:E; constructor;
        [| constructor].
      apply orb_false_iff in E. destruct E as [E1 E2].
      rewrite Z.gtb_ltb in E1. apply Z.ltb_ge in E1. apply Z.ltb_ge in E2.
      simpl. unfold U64.max, U64.min.
      destruct (s <? first) eqn:C1; destruct (first + n - 1 <? e) eqn:C2;
        rewrite ?Z.ltb_lt, ?Z.ltb_ge in *; lia. }
    specialize (H Hall [] (Forall_nil _)). now rewrite Hret in H.
Qed.

Lemma ranges_lie_within_the_request_witness :
  Forall (fun r => 100 <= Start r /\ End_ r <= 199)
    [mkSpanBatchRange 100 109; mkSpanBatchRange 100 199].
Proof.
  exact (proj1 (ranges_lie_within_the_request two_second_blocks
                  [[SpanBatch 200 10; SingularBatch 220]] 100 199
                  [mkSpanBatchRange 100 109; mkSpanBatchRange 100 199]
                  eq_refl)).
Defined.

(** Channels of span batches only, under a block time that is not zero: the
    loops append the clipped range of every batch, in order. *)
Lemma span_batches_are_clipped cfg s e batches :
  BlockTime cfg <> 0 ->
  forallb is_span_batch batches = true ->
  forall ranges,
    range_over_batches cfg s e batches ranges
      = inl (ranges ++ flat_map (clipped cfg s e) batches).
Proof.
  intros Hbt. induction batches as [| b rest IH]; intros Hall ranges; simpl.
  - now rewrite app_nil_r.
  - simpl in Hall. apply andb_prop in Hall. destruct Hall as [Hb Hrest].
    destruct b as [ts | ts n |]; try discriminate. simpl.
    assert (Hsome : exists first, TimestampToBlock cfg ts = Some first).
    { unfold TimestampToBlock, U64.div.
      destruct (BlockTime cfg =? 0) eqn:E;
        [apply Z.eqb_eq in E; contradiction | eauto]. }
    destruct Hsome as [first Hfirst]. rewrite Hfirst. cbv zeta.
    destruct ((first >? e)
              || (U64.sub (U64.add first (U64.wrap n)) 1 <? s)).
    + now rewrite IH.
    + rewrite IH by assumption. now rewrite <- app_assoc.
Qed.

Lemma span_channels_are_clipped cfg s e channels :
  BlockTime cfg <> 0 ->
  Forall (fun batches => batches <> [] /\ forallb is_span_batch batches = true)
    channels ->
  forall ranges,
    range_over_channels cfg s e channels ranges
      = Returned (ranges ++ flat_map (flat_map (clipped cfg s e)) channels).
Proof.
  intros Hbt. induction 1 as [| batches rest [Hne Hall] _ IH]; intros ranges; simpl.
  - now rewrite app_nil_r.
  - destruct batches as [| b bs]; [contradiction |].
    rewrite (span_batches_are_clipped cfg s e (b :: bs) Hbt Hall).
    rewrite IH. now rewrite <- app_assoc.
Qed.

(** X13: the order in which the channels are visited (the order of the
    iteration over a Go map) changes the result only by a permutation, as
    long as every channel holds span batches only and the block time is not
    zero: the result is then the list of the clipped ranges of all batches.
    With a batch that is not a span batch the order decides what is
    returned. *)
Theorem channel_order_only_permutes_the_ranges :
  forall (cfg : rollup_Config) (startBlock endBlock : Z)
         (channels channels' : list (list Batch)),
    BlockTime cfg <> 0 ->
    Forall (fun batches => batches <> [] /\ forallb is_span_batch batches = true)
      channels ->
    Permutation channels channels' ->
    GetSpanBatchRanges cfg channels startBlock endBlock
      = Returned (flat_map (flat_map (clipped cfg startBlock endBlock)) channels)
    /\ GetSpanBatchRanges cfg channels' startBlock endBlock
       = Returned (flat_map (flat_map (clipped cfg startBlock endBlock)) channels')
    /\ Permutation
         (flat_map (flat_map (clipped cfg startBlock endBlock)) channels)
         (flat_map (flat_map (clipped cfg startBlock endBlock)) channels').
Proof.
  intros cfg s e channels channels' Hbt Hall Hperm.
  assert (Hall' : Forall (fun batches =>
                            batches <> [] /\ forallb is_span_batch batches = true)
                    channels')
    by (eapply Permutation_Forall; eassumption).
  unfold GetSpanBatchRanges.
  rewrite !span_channels_are_clipped by assumption. simpl.
  repeat split. now apply Permutation_flat_map.
Qed.

Lemma channel_order_only_permutes_the_ranges_witness :
  GetSpanBatchRanges two_second_blocks
    [[SpanBatch 300 10]; [SpanBatch 200 10; SpanBatch 220 40]] 100 199
    = Returned [mkSpanBatchRange 150 159; mkSpanBatchRange 100 109;
                mkSpanBatchRange 110 149].
Proof.
  refine (proj1 (proj2 (channel_order_only_permutes_the_ranges two_second_blocks
                          100 199
                          [[SpanBatch 200 10; SpanBatch 220 40]; [SpanBatch 300 10]]
                          [[SpanBatch 300 10]; [SpanBatch 200 10; SpanBatch 220 40]]
                          _ _ _))).
  - discriminate.
  - repeat constructor; discriminate.
  - apply perm_swap.
Defined.

(** With a singular batch in one channel the two orders give results that
    differ in length. *)
Lemma channel_order_matters_with_a_fallback :
  GetSpanBatchRanges two_second_blocks
    [[SpanBatch 200 10]; [SingularBatch 220]] 100 199
    = Returned [mkSpanBatchRange 100 109; mkSpanBatchRange 100 199]
  /\ GetSpanBatchRanges two_second_blocks
       [[SingularBatch 220]; [SpanBatch 200 10]] 100 199
     = Returned [mkSpanBatchRange 100 199].
Proof. split; reflexivity. Qed.

End RangeFacts.

(* ================================================================== *)
(** ** More on the L1 search boundaries *)
(* ================================================================== *)

Module BoundaryFacts.
Import Utils.

(** X14: the search window.  When the four calls to the clients succeed and
    the L1 block time [t] is positive, the lower bound is the L1 origin of
    the start block and, if the end origin is at least 600 below [2^64], the
    upper bound lies between the end origin and the end origin plus 600.
    The window is not extended at all when [t] is above 60 seconds; this
    is also what happens when the block before the start origin carries the
    later timestamp, since the unsigned difference is then huge. *)
Theorem search_window_bounds :
  forall (c : Clients) (startBlock endBlock o ts tprev oe : Z),
    OutputAtBlock c startBlock = inr o ->
    BlockByNumber c (U64.to_int64 o) = inr ts ->
    BlockByNumber c (U64.to_int64 (U64.sub o 1)) = inr tprev ->
    OutputAtBlock c endBlock = inr oe ->
    0 <= oe -> oe + 600 < U64.modulus ->
    let t := U64.sub ts tprev in
    (0 < t ->
       exists upper,
         GetL1SearchBoundaries c startBlock endBlock = Returned (o, upper)
         /\ oe <= upper <= oe + 600
         /\ (60 < t -> upper = oe))
    /\ (U64.in_range ts -> U64.in_range tprev ->
        ts < tprev -> tprev - ts < U64.modulus - 60 ->
        GetL1SearchBoundaries c startBlock endBlock = Returned (o, oe)).
Proof.
  intros c startBlock endBlock o ts tprev oe Ho Hts Hprev Hoe Hoe0 Hfit t.
  assert (Hpos : 0 < t ->
                 exists upper,
                   GetL1SearchBoundaries c startBlock endBlock = Returned (o, upper)
                   /\ oe <= upper <= oe + 600
                   /\ (60 < t -> upper = oe)).
  { intros Ht.
    pose proof (SearchBoundaries.boundaries_positive_block_time
                  c startBlock endBlock o ts tprev oe Ho Hts Hprev Hoe Ht) as Hret.
    fold t in Hret.
    destruct (SearchBoundaries.blocks_per_minute_bounds t Ht) as [Hq _].
    assert (Hadd : U64.add oe (60 / t * 10) = oe + 60 / t * 10)
      by (apply U64Facts.add_no_carry; lia).
    exists (oe + 60 / t * 10). rewrite Hret, Hadd.
    split; [reflexivity |]. split; [lia |].
    intros Hbig. rewrite Z.div_small by lia. lia. }
  split; [exact Hpos |].
  intros Hrts Hrprev Hlt Hgap.
  assert (Ht : t = U64.modulus - (tprev - ts)).
  { unfold t, U64.sub, U64.wrap.
    replace (ts - tprev) with ((U64.modulus - (tprev - ts)) + (-1) * U64.modulus)
      by lia.
    rewrite Z.mod_add by (unfold U64.modulus; lia).
    apply Z.mod_small. unfold U64.in_range in *. lia. }
  destruct Hpos as [upper [Hret [_ Hsame]]]; [lia |].
  rewrite Hret. rewrite Hsame by lia. reflexivity.
Qed.

(** Blocks 90 seconds apart: the window ends at the end origin. *)
Lemma search_window_bounds_witness :
  GetL1SearchBoundaries (steady_clients 1000 90) 5 6 = Returned (1000, 1000).
Proof.
  pose proof (proj1 (search_window_bounds (steady_clients 1000 90) 5 6
                       1000 90000 89910 1000
                       eq_refl eq_refl eq_refl eq_refl
                       ltac:(lia) ltac:(unfold U64.modulus; lia))
                ltac:(reflexivity)) as [upper [Hret [_ Hsame]]].
  rewrite Hret. rewrite Hsame; [reflexivity |].
  reflexivity.
Defined.

End BoundaryFacts.

(* ================================================================== *)
(** ** More on CustomBytes32 *)
(* ================================================================== *)

Module HexFacts.
Import Utils.

Lemma all_hex_app s1 s2 :
  all_hex (s1 ++ s2) = all_hex s1 && all_hex s2.
Proof.
  induction s1 as [| c s1 IH]; simpl; [reflexivity |].
  now rewrite IH, andb_assoc.
Qed.

(** Only strings of hex digits decode. *)
Lemma hex_decode_only_digits s :
  forall bytes, hex_DecodeString s = inr bytes -> all_hex s = true.
Proof.
  induction s as [| c | p q rest IH] using HexPadding.string_pair_ind;
    intros bytes H.
  - reflexivity.
  - simpl in H. destruct (fromHexChar c); discriminate.
  - simpl in H. simpl. unfold is_hex_digit.
    destruct (fromHexChar p); [| discriminate].
    destruct (fromHexChar q); [| discriminate].
    destruct (hex_DecodeString rest) as [e | bs]; [discriminate |].
    simpl. exact (IH bs eq_refl).
Qed.

Lemma decode_digits_succeeds t :
  all_hex t = true -> (String.length t <= 64)%nat ->
  exists bytes,
    decode_digits t = inr bytes
    /\ hex_DecodeString (padded t) = inr bytes
    /\ List.length bytes = 32%nat.
Proof.
  intros Hh Hlen.
  destruct (HexPadding.padded_facts t Hh Hlen) as [Hs [Hl [Hhp Hpp]]].
  destruct (HexPadding.decode_digits_full (padded t) Hhp Hl)
    as [bytes [Hdec [H32 Hraw]]].
  exists bytes. split; [| split; assumption].
  unfold decode_digits in *. rewrite Hs. now rewrite Hpp in Hdec.
Qed.

Lemma decode_digits_only_hex t bytes :
  decode_digits t = inr bytes ->
  all_hex t = true /\ (String.length t <= 64)%nat.
Proof.
  unfold decode_digits. rewrite HexPadding.parse_prefixed.
  destruct (hex_DecodeString (Sprintf_064s t)) as [e | bs] eqn:E; [discriminate |].
  destruct (Nat.eqb (List.length bs) 32) eqn:E32; simpl; [| discriminate].
  intros _. apply Nat.eqb_eq in E32.
  pose proof (hex_decode_only_digits _ _ E) as Hall.
  pose proof (HexPadding.hex_decode_length _ _ E) as Hlen.
  unfold Sprintf_064s in Hall, Hlen.
  rewrite all_hex_app in Hall. apply andb_prop in Hall. destruct Hall as [_ Ht].
  split; [exact Ht |].
  destruct (HexPadding.zeros_app_facts (64 - RuneCountInString t) t) as [Hl _].
  rewrite Hl, (HexPadding.rune_count_hex t Ht) in Hlen. lia.
Qed.

Lemma capital_prefix_not_hex s : all_hex ("0X" ++ s) = false.
Proof. reflexivity. Qed.

Lemma capital_prefix_not_trimmed s : TrimPrefix ("0X" ++ s) "0x" = ("0X" ++ s)%string.
Proof. reflexivity. Qed.

(** X15: what [CustomBytes32] accepts.  A string decodes if and only if,
    once one leading "0x" is removed, it consists of at most 64 hex digits
    (none at all is allowed and gives 32 zero bytes).  In particular the
    prefix is matched in lower case only and removed once only: a string
    that starts with "0X", or with "0x0x", is rejected whatever follows. *)
Theorem custom_bytes32_accepts_exactly_hex_digits :
  forall s : string,
    ((exists bytes, CustomBytes32_decode s = inr bytes)
     <-> (all_hex (TrimPrefix s "0x") = true
          /\ (String.length (TrimPrefix s "0x") <= 64)%nat))
    /\ (exists err, CustomBytes32_decode ("0X" ++ s) = inl err)
    /\ (exists err, CustomBytes32_decode ("0x0x" ++ s) = inl err).
Proof.
  intros s.
  assert (Hiff : forall x,
             (exists bytes, CustomBytes32_decode x = inr bytes)
             <-> (all_hex (TrimPrefix x "0x") = true
                  /\ (String.length (TrimPrefix x "0x") <= 64)%nat)).
  { intros x. rewrite HexPadding.decode_unfold. split.
    - intros [bytes H]. exact (decode_digits_only_hex _ _ H).
    - intros [Hh Hl]. destruct (decode_digits_succeeds _ Hh Hl) as [bytes [H _]].
      now exists bytes. }
  assert (Hreject : forall x,
             all_hex (TrimPrefix x "0x") = false ->
             exists err, CustomBytes32_decode x = inl err).
  { intros x Hx. destruct (CustomBytes32_decode x) as [err | bytes] eqn:E;
      [now exists err |].
    assert (Hex : exists b, CustomBytes32_decode x = inr b) by now exists bytes.
    apply Hiff in Hex. destruct Hex as [Hh _]. congruence. }
  split; [apply Hiff |]. split; apply Hreject.
  - now rewrite capital_prefix_not_trimmed.
  - change ("0x0x" ++ s)%string with ("0x" ++ ("0x" ++ s))%string.
    rewrite HexPadding.trim_prefixed. reflexivity.
Qed.

Lemma nibble_range c d : fromHexChar c = Some d -> 0 <= d < 16.
Proof.
  unfold fromHexChar. cbv zeta.
  destruct ((48 <=? Z.of_N (N_of_ascii c)) && (Z.of_N (N_of_ascii c) <=? 57)) eqn:E1.
  { intros H. injection H as <-. apply andb_prop in E1. destruct E1 as [A B].
    apply Z.leb_le in A. apply Z.leb_le in B. lia. }
  destruct ((97 <=? Z.of_N (N_of_ascii c)) && (Z.of_N (N_of_ascii c) <=? 102)) eqn:E2.
  { intros H. injection H as <-. apply andb_prop in E2. destruct E2 as [A B].
    apply Z.leb_le in A. apply Z.leb_le in B. lia. }
  destruct ((65 <=? Z.of_N (N_of_ascii c)) && (Z.of_N (N_of_ascii c) <=? 70)) eqn:E3.
  { intros H. injection H as <-. apply andb_prop in E3. destruct E3 as [A B].
    apply Z.leb_le in A. apply Z.leb_le in B. lia. }
  discriminate.
Qed.

Lemma nibble_cases x :
  0 <= x < 16 ->
  x = 0 \/ x = 1 \/ x = 2 \/ x = 3 \/ x = 4 \/ x = 5 \/ x = 6 \/ x = 7 \/
   x = 8 \/ x = 9 \/ x = 10 \/ x = 11 \/ x = 12 \/ x = 13 \/ x = 14 \/ x = 15.
Proof. lia. Qed.

(** Two nibbles make a byte. *)
Lemma byte_of_nibbles a b :
  0 <= a < 16 -> 0 <= b < 16 ->
  Z.lor (Z.shiftl a 4) b = 16 * a + b /\ 0 <= Z.lor (Z.shiftl a 4) b < 256.
Proof.
  intros Ha Hb.
  apply nibble_cases in Ha. apply nibble_cases in Hb.
  repeat (destruct Ha as [Ha | Ha]); subst a;
    repeat (destruct Hb as [Hb | Hb]); subst b;
    (split; [reflexivity | split; [discriminate | reflexivity]]).
Qed.

Lemma hex_decode_pair p q rest :
  hex_DecodeString (String p (String q rest)) =
    match fromHexChar p, fromHexChar q with
    | Some a, Some b =>
        match hex_DecodeString rest with
        | inl e => inl e
        | inr bytes => inr (Z.lor (Z.shiftl a 4) b :: bytes)
        end
    | _, _ => inl ErrSyntax
    end.
Proof. reflexivity. Qed.

Lemma hex_decode_value s :
  forall bytes acc,
    hex_DecodeString s = inr bytes ->
    big_endian_from acc bytes = hex_value_from acc s
    /\ Forall (fun b => 0 <= b < 256) bytes.
Proof.
  induction s as [| c | p q rest IH] using HexPadding.string_pair_ind;
    intros bytes acc H.
  - simpl in H. injection H as <-. split; [reflexivity | constructor].
  - simpl in H. destruct (fromHexChar c); discriminate.
  - rewrite hex_decode_pair in H.
    unfold hex_value_from; fold hex_value_from. unfold digit_value.
    destruct (fromHexChar p) as [a |] eqn:Ep; [| discriminate].
    destruct (fromHexChar q) as [b |] eqn:Eq; [| discriminate].
    destruct (hex_DecodeString rest) as [e | bs] eqn:Er; [discriminate |].
    assert (Hbytes : bytes = Z.lor (Z.shiftl a 4) b :: bs) by congruence.
    subst bytes. clear H.
    destruct (byte_of_nibbles a b (nibble_range _ _ Ep) (nibble_range _ _ Eq))
      as [Hbyte Hrange].
    destruct (IH bs (256 * acc + (16 * a + b)) eq_refl) as [Hval Hall].
    split.
    + unfold big_endian_from in *. rewrite Hbyte.
      change (fold_left (fun acc b : Z => 256 * acc + b) ((16 * a + b) :: bs) acc)
        with (fold_left (fun acc b : Z => 256 * acc + b) bs
                (256 * acc + (16 * a + b))).
      rewrite Hval. f_equal. lia.
    + constructor; assumption.
Qed.

Lemma leading_zeros_value n s : hex_value (zeros n ++ s) = hex_value s.
Proof.
  unfold hex_value. induction n as [| n IH]; simpl; [reflexivity | exact IH].
Qed.

(** X16: the value [CustomBytes32] decodes.  For a string [d] of at most 64
    hex digits, the 32 bytes decoded from "0x" followed by [d] are octets
    (each between 0 and 255) and, read with the most significant byte first,
    they are the number the digits of [d] denote. *)
Theorem custom_bytes32_is_the_big_endian_value :
  forall d : string,
    all_hex d = true -> (String.length d <= 64)%nat ->
    exists bytes,
      CustomBytes32_decode ("0x" ++ d) = inr bytes
      /\ List.length bytes = 32%nat
      /\ Forall (fun b => 0 <= b < 256) bytes
      /\ big_endian bytes = hex_value d.
Proof.
  intros d Hh Hlen.
  destruct (decode_digits_succeeds d Hh Hlen) as [bytes [Hdec [Hraw H32]]].
  destruct (hex_decode_value _ bytes 0 Hraw) as [Hval Hall].
  exists bytes. rewrite HexPadding.decode_unfold, HexPadding.trim_prefixed.
  repeat split; try assumption.
  unfold big_endian. rewrite Hval. apply leading_zeros_value.
Qed.

(** "0x1F4" is 500. *)
Lemma custom_bytes32_is_the_big_endian_value_witness :
  exists bytes,
    CustomBytes32_decode "0x1F4" = inr bytes
    /\ List.length bytes = 32%nat
    /\ Forall (fun b => 0 <= b < 256) bytes
    /\ big_endian bytes = 500.
Proof.
  apply (custom_bytes32_is_the_big_endian_value "1F4").
  - reflexivity.
  - simpl. lia.
Defined.

End HexFacts.

(* ================================================================== *)
(** ** The derivation as a whole *)
(* ================================================================== *)

Module DerivationFacts.
Import Utils.

(** After the set-up the four fields are those of the rollup config, and
    the others are the caller's. *)
Lemma setup_overrides env config rollupCfg config' :
  setupBatchDecoderConfig env config = inr (rollupCfg, config') ->
  load_rollup_config env (U64.wrap (L2ChainID config)) = inr rollupCfg
  /\ config' =
       mkBatchDecoderConfig
         (Genesis_L2Time (chain rollupCfg)) (Genesis_L2_Number (chain rollupCfg))
         (BlockTime (chain rollupCfg)) (Rollup_BatchInboxAddress rollupCfg)
         (L2StartBlock config) (L2EndBlock config) (L2ChainID config)
         (BatchSender config) (DataDir config).
Proof.
  unfold setupBatchDecoderConfig.
  destruct (load_rollup_config env (U64.wrap (L2ChainID config)))
    as [err | cfg]; [discriminate |].
  intros H. injection H as <- <-. split; [reflexivity |].
  destruct config as [gt gb bt inbox sb eb cid sender dir]. cbn.
  destruct (gt =? Genesis_L2Time (chain cfg)) eqn:E1; cbn;
    destruct (gb =? Genesis_L2_Number (chain cfg)) eqn:E2; cbn;
    destruct (bt =? BlockTime (chain cfg)) eqn:E3; cbn;
    destruct (String.eqb inbox (Rollup_BatchInboxAddress cfg)) eqn:E4; cbn;
    rewrite ?Z.eqb_eq in *; rewrite ?String.eqb_eq in *; subst; reflexivity.
Qed.

Lemma setup_depends_on_request env c1 c2 :
  same_request c1 c2 ->
  setupBatchDecoderConfig env c1 = setupBatchDecoderConfig env c2.
Proof.
  intros [Hs [He [Hc [Hb Hd]]]].
  destruct (setupBatchDecoderConfig env c1) as [e1 | [r1 c1']] eqn:E1;
    destruct (setupBatchDecoderConfig env c2) as [e2 | [r2 c2']] eqn:E2.
  - unfold setupBatchDecoderConfig in E1, E2. rewrite Hc in E1.
    destruct (load_rollup_config env (U64.wrap (L2ChainID c2))); congruence.
  - apply setup_overrides in E2. destruct E2 as [L2 _].
    unfold setupBatchDecoderConfig in E1. rewrite Hc, L2 in E1. discriminate.
  - apply setup_overrides in E1. destruct E1 as [L1 _].
    unfold setupBatchDecoderConfig in E2. rewrite <- Hc, L1 in E2. discriminate.
  - apply setup_overrides in E1. apply setup_overrides in E2.
    destruct E1 as [L1 ->]. destruct E2 as [L2 ->].
    rewrite Hc, L2 in L1. injection L1 as <-.
    now rewrite Hs, He, Hc, Hb, Hd.
Qed.

(** X17: the derivation takes the genesis time, the genesis block, the block
    time and the batch inbox from the rollup config of the chain, not from
    its caller: two configurations that agree on the block range, the chain,
    the batch sender and the data directory give the same outcome, whatever
    their other four fields say. *)
Theorem derivation_ignores_the_callers_chain_constants :
  forall (env : Environment) (c1 c2 : BatchDecoderConfig),
    same_request c1 c2 ->
    GetAllSpanBatchesInL2BlockRange env c1 = GetAllSpanBatchesInL2BlockRange env c2.
Proof.
  intros env c1 c2 Hsame. unfold GetAllSpanBatchesInL2BlockRange.
  now rewrite (setup_depends_on_request env c1 c2 Hsame).
Qed.

Lemma derivation_ignores_the_callers_chain_constants_witness :
  GetAllSpanBatchesInL2BlockRange sample_environment
    (mkBatchDecoderConfig 0 0 2 "0xff00" 100 199 10 "0x6887" "/tmp/batches")
  = GetAllSpanBatchesInL2BlockRange sample_environment
      (mkBatchDecoderConfig 77 5 12 "0xdead" 100 199 10 "0x6887" "/tmp/batches").
Proof.
  apply derivation_ignores_the_callers_chain_constants.
  repeat split.
Defined.

Lemma batches_never_fail cfg s e batches :
  forall ranges err,
    range_over_batches cfg s e batches ranges <> inr (Failed err).
Proof.
  induction batches as [| b rest IH]; intros ranges err; simpl; [discriminate |].
  destruct (GetTimestamp b); [| discriminate].
  destruct (TimestampToBlock cfg z); [| discriminate].
  destruct (AsSpanBatch b); [| discriminate].
  destruct (_ || _); apply IH.
Qed.

Lemma channels_never_fail cfg s e channels :
  forall ranges err,
    range_over_channels cfg s e channels ranges <> Failed err.
Proof.
  induction channels as [| batches rest IH]; intros ranges err; simpl;
    [discriminate |].
  destruct batches as [| b bs]; [discriminate |].
  pose proof (batches_never_fail cfg s e (b :: bs) ranges err) as Hb.
  destruct (range_over_batches cfg s e (b :: bs) ranges) as [rs | o].
  - apply IH.
  - intros ->. now apply Hb.
Qed.

(** X18: what the derivation as a whole returns.  The ranges it returns lie
    within the L2 block range of the configuration; and an error it returns
    comes from the rollup config file, from the search boundaries or from
    clearing the data directory, never from [GetSpanBatchRanges], which has
    no failing path. *)
Theorem derivation_outcomes :
  forall (env : Environment) (config : BatchDecoderConfig),
    (forall ranges,
        GetAllSpanBatchesInL2BlockRange env config = Returned ranges ->
        Forall (fun r => L2StartBlock config <= Start r
                         /\ End_ r <= L2EndBlock config) ranges)
    /\ (forall err,
          GetAllSpanBatchesInL2BlockRange env config = Failed err ->
          exists cause,
            err = Errorf "failed to setup config" cause
            \/ err = Errorf "failed to get L1 origin and finalized" cause
            \/ err = Errorf "failed to fetch batches" cause).
Proof.
  intros env config. unfold GetAllSpanBatchesInL2BlockRange.
  destruct (setupBatchDecoderConfig env config) as [e | [rollupCfg config']] eqn:Es.
  { split; [discriminate |]. intros err H. injection H as <-. eauto. }
  apply setup_overrides in Es. destruct Es as [_ Hc].
  assert (Hs : L2StartBlock config' = L2StartBlock config) by now rewrite Hc.
  assert (He : L2EndBlock config' = L2EndBlock config) by now rewrite Hc.
  rewrite Hs, He.
  destruct (GetL1SearchBoundaries (l1_clients env) (L2StartBlock config)
              (L2EndBlock config)) as [[l1Start l1End] | e | m | m].
  2: { split; [discriminate |]. intros err H. injection H as <-. eauto. }
  2, 3: split; discriminate.
  destruct (fetchBatchesBetweenL1Blocks env config' rollupCfg l1Start l1End)
    as [e | fetched].
  { split; [discriminate |]. intros err H. injection H as <-. eauto. }
  cbv zeta.
  match goal with
  | |- context [GetSpanBatchRanges ?c ?chs ?s ?e] =>
      pose proof (RangeFacts.returned_ranges_within c chs s e) as Hin;
      pose proof (channels_never_fail c s e chs []) as Hnf;
      unfold GetSpanBatchRanges in *;
      destruct (range_over_channels c s e chs []) as [rs | e' | m | m]
  end.
  - split; [| discriminate]. intros ranges H. injection H as <-.
    now apply Hin.
  - now contradiction (Hnf e').
  - split; discriminate.
  - split; discriminate.
Qed.

(** The sample chain: one range, inside the blocks asked for. *)
Lemma derivation_outcomes_witness :
  Forall (fun r => 100 <= Start r /\ End_ r <= 199) [mkSpanBatchRange 100 109].
Proof.
  exact (proj1 (derivation_outcomes sample_environment
                  (mkBatchDecoderConfig 0 0 2 "0xff00" 100 199 10 "0x6887"
                     "/tmp/batches"))
           [mkSpanBatchRange 100 109] eq_refl).
Defined.

End DerivationFacts.
